(** * ClipCraft download server: queue, clip extraction, transcription

    A shallow embedding of the two server programs of the repository,

    - [server.js]            (the JavaScript server, called [ServerJs] below),
    - [src/unnamed/part_003] (the TypeScript server "v2.0", called [ServerTs]),

    and the properties of the acquisition-and-clip pipeline proved about
    them.  Both programs share [processQueue], [downloadVideo] and the
    caption chunking of [POST /transcribe] word for word; they differ in the
    request validation of their handlers, which the handlers below select
    by a [variant] argument.

    Conventions of the embedding.
    - A JavaScript string is a [string]; one [ascii] stands for one code
      unit, so the default order of [Array.prototype.sort] is [String.leb].
    - A JavaScript number read from a JSON body is a rational [Q]
      (comparison of finite doubles is exact; [NaN] and the infinities do
      not occur in JSON).
    - Objects that are shared and mutated ([DownloadQueueItem]) live in a
      heap and are named by their index; [downloadQueue], [currentDownload]
      and the suspended [async] activations hold such indices.
    - One transition of the server is one run-to-completion turn of the
      event loop: a request handler, or a child-process callback together
      with the promise continuations it wakes up. *)

From Stdlib Require Import Ascii String QArith.
From stdpp Require Import base list strings pretty sorting gmap.

Local Open Scope string_scope.
Local Open Scope list_scope.

(** ** JavaScript values found in request and response bodies *)

#[local] Set Warnings "-register-all".

Inductive jsval :=
| JUndefined
| JNull
| JBool (b : bool)
| JNum (q : Q)
| JStr (s : string)
| JArr (items : list jsval)
| JObject (fields : list (string * jsval)).

(** [!!v] of JavaScript. *)
Definition truthy (v : jsval) : bool :=
  match v with
  | JUndefined | JNull => false
  | JBool b => b
  | JNum q => negb (Qeq_bool q 0)
  | JStr s => negb (String.eqb s EmptyString)
  | JArr _ | JObject _ => true
  end.

(** [typeof v === 'string'] and [typeof v === 'number']. *)
Definition is_string (v : jsval) : bool :=
  match v with JStr _ => true | _ => false end.

Definition is_number (v : jsval) : bool :=
  match v with JNum _ => true | _ => false end.

(** [v === undefined] *)
Definition is_undefined (v : jsval) : bool :=
  match v with JUndefined => true | _ => false end.

(** [a < b] and [a <= b] on numbers. *)
Definition num_le (a b : Q) : bool := Qle_bool a b.
Definition num_lt (a b : Q) : bool := negb (Qle_bool b a).

Definition num_of_nat (n : nat) : jsval := JNum (inject_Z (Z.of_nat n)).
Definition num_of_N (n : N) : jsval := JNum (inject_Z (Z.of_N n)).

(** The two server programs. *)
Inductive variant := ServerJs | ServerTs.

(** [res.status(code).json(body)]; [res.json(body)] has status 200. *)
Record response := Response {
  res_status : nat;
  res_body : jsval;
}.

Definition json (code : nat) (fields : list (string * jsval)) : response :=
  Response code (JObject fields).

(** An exception that no handler catches reaches the error middleware:
    the one [app.use] installs in the TypeScript server, Express's own in
    [server.js] (status 500, no JSON body). *)
Definition uncaught (v : variant) : response :=
  match v with
  | ServerTs => json 500 [("error", JStr "Internal server error")]
  | ServerJs => Response 500 JUndefined
  end.

(** ** String methods used by the servers *)

Module Str.

(** [s.startsWith(p)] *)
Definition startsWith (s p : string) : bool := String.prefix p s.

(** [s.includes(p)]: [p] occurs at some position of [s]. *)
Fixpoint includes (s p : string) : bool :=
  String.prefix p s ||
  match s with
  | EmptyString => false
  | String _ s' => includes s' p
  end.

(** [s.endsWith(p)]: [p] is the suffix of [s] of its length. *)
Fixpoint endsWith (s p : string) : bool :=
  String.eqb s p ||
  match s with
  | EmptyString => false
  | String _ s' => endsWith s' p
  end.

(** [s.split('.')[0]]: the part of [s] before its first dot. *)
Fixpoint before_dot (s : string) : string :=
  match s with
  | EmptyString => EmptyString
  | String c s' => if Ascii.eqb c "."%char then EmptyString else String c (before_dot s')
  end.

Lemma app_cons (c : ascii) (s t : string) : String c s +:+ t = String c (s +:+ t).
Proof. reflexivity. Qed.

Lemma append_assoc (s1 s2 s3 : string) : (s1 +:+ s2) +:+ s3 = s1 +:+ s2 +:+ s3.
Proof. induction s1 as [|a s1 IH]; [done|]. by rewrite !app_cons, IH. Qed.

Lemma prefix_cons (c : ascii) (p s : string) :
  String.prefix (String c p) (String c s) = String.prefix p s.
Proof. simpl. by destruct (ascii_dec c c). Qed.


Lemma includes_prefix (s p : string) :
  String.prefix p s = true → includes s p = true.
Proof. intros H. destruct s; simpl in *; by rewrite H. Qed.



End Str.

(** ** Caption chunking of [POST /transcribe]

    The block under the comment "Format captions", the same in both
    servers. *)

Module Captions.

(** [TranscriptionWord] of the service's answer: [{word, start, end}]. *)
Record TranscriptionWord := {
  word : string;
  start : Q;
  end_ : Q;
}.

(** One entry of [currentCaption.words]: [{text, startTime, endTime}]. *)
Record CaptionWord := {
  cw_text : string;
  cw_startTime : Q;
  cw_endTime : Q;
}.

Record Caption := {
  text : string;
  words : list CaptionWord;
  startTime : Q;
  endTime : Q;
}.

(** [{ text: '', words: [], startTime: 0, endTime: 0 }] *)
Definition fresh_caption : Caption :=
  {| text := EmptyString; words := []; startTime := 0; endTime := 0 |}.

(** The body of [response.words.forEach((word, i) => ...)]: [n] is
    [response.words.length], the state is [(captions, currentCaption)]. *)
Definition forEach_body (n : nat) (st : list Caption * Caption)
    (w : TranscriptionWord) (i : nat) : list Caption * Caption :=
  let '(captions, cur) := st in
  let cur :=
    {| words := words cur ++
         [{| cw_text := word w; cw_startTime := start w; cw_endTime := end_ w |}];
       text := text cur
               +:+ (if negb (String.eqb (text cur) EmptyString) then " " else EmptyString)
               +:+ word w;
       startTime := if Nat.eqb i 0 then start w else startTime cur;
       endTime := end_ w |} in
  if (8 <=? length (words cur))%nat || (Z.of_nat i =? Z.of_nat n - 1)%Z
  then (captions ++ [cur], fresh_caption)
  else (captions, cur).

(** [forEach] from index [i] on. *)
Fixpoint forEach (n : nat) (ws : list TranscriptionWord) (i : nat)
    (st : list Caption * Caption) : list Caption * Caption :=
  match ws with
  | [] => st
  | w :: ws' => forEach n ws' (S i) (forEach_body n st w i)
  end.

(** [captions] as sent in the response; [response.words] may be absent. *)
Definition format_captions (response_words : option (list TranscriptionWord))
    : list Caption :=
  match response_words with
  | None => []
  | Some ws => fst (forEach (length ws) ws 0 ([], fresh_caption))
  end.

Definition to_caption_word (w : TranscriptionWord) : CaptionWord :=
  {| cw_text := word w; cw_startTime := start w; cw_endTime := end_ w |}.

(** The nine words of the specification's example; only the first two are
    spelled out there, the other seven follow the same pattern. *)
Definition nine_words : list TranscriptionWord :=
  [ {| word := "hi";    start := 0;     end_ := 2#10 |};
    {| word := "there"; start := 2#10;  end_ := 5#10 |};
    {| word := "this";  start := 5#10;  end_ := 8#10 |};
    {| word := "is";    start := 8#10;  end_ := 10#10 |};
    {| word := "a";     start := 10#10; end_ := 12#10 |};
    {| word := "short"; start := 12#10; end_ := 15#10 |};
    {| word := "test";  start := 15#10; end_ := 18#10 |};
    {| word := "of";    start := 18#10; end_ := 20#10 |};
    {| word := "it";    start := 24#10; end_ := 27#10 |} ].

(** *** What the loop computes *)

(** Invariant of the loop for the start times: only the caption at
    position 0 ever receives a word's start, because the assignment is
    guarded by the index [i] of the word in the whole list. *)
Definition starts_inv (i : nat) (st : list Caption * Caption) : Prop :=
  (i = 0%nat → st = ([], fresh_caption)) ∧
  (fst st ≠ [] → startTime (snd st) = 0%Q) ∧
  (∀ k c, fst st !! S k = Some c → startTime c = 0%Q).

Lemma forEach_body_starts n st w i :
  starts_inv i st → starts_inv (S i) (forEach_body n st w i).
Proof.
  destruct st as [captions cur]. intros (H0 & Hcur & Hlater).
  unfold forEach_body, starts_inv.
  destruct (_ || _); simpl in *.
  - split; [done|]. split; [done|].
    intros k c Hk. destruct captions as [|c0 captions'].
    + simpl in Hk. by destruct k.
    + apply lookup_app_Some in Hk as [Hk|[_ Hk]]; [by eapply Hlater|].
      apply list_lookup_singleton_Some in Hk as [_ <-]. simpl.
      destruct i; [by specialize (H0 eq_refl)|]. simpl. by apply Hcur.
  - split; [done|]. split; [|done].
    intros Hne. destruct i; [by specialize (H0 eq_refl); simplify_eq|].
    simpl. by apply Hcur.
Qed.

Lemma forEach_starts n ws i st :
  starts_inv i st → ∀ k c, fst (forEach n ws i st) !! S k = Some c → startTime c = 0%Q.
Proof.
  revert i st. induction ws as [|w ws IH]; intros i st Hinv; simpl.
  - apply Hinv.
  - apply IH. by apply forEach_body_starts.
Qed.

(** Every caption but the first is sent with [startTime] 0, whatever its
    first word's start is. *)
Lemma later_captions_start_at_zero ws k c :
  format_captions (Some ws) !! S k = Some c → startTime c = 0%Q.
Proof.
  unfold format_captions. apply forEach_starts.
  split; [done|]. split; [done|]. intros k' c' Hk. simpl in Hk. done.
Qed.

(** Any list of nine words gives two captions, of eight words and of one;
    the end times are the last words' ends, the first caption starts with
    word 0, and the second caption's [startTime] is 0. *)
Lemma format_captions_nine w0 w1 w2 w3 w4 w5 w6 w7 w8 :
  ∃ c1 c2,
    format_captions (Some [w0; w1; w2; w3; w4; w5; w6; w7; w8]) = [c1; c2] ∧
    words c1 = to_caption_word <$> [w0; w1; w2; w3; w4; w5; w6; w7] ∧
    startTime c1 = start w0 ∧ endTime c1 = end_ w7 ∧
    words c2 = [to_caption_word w8] ∧
    startTime c2 = 0%Q ∧ endTime c2 = end_ w8.
Proof.
  set (captions := format_captions _). vm_compute in captions. subst captions.
  eexists _, _. repeat split.
Qed.

(** C2, evaluated on the nine words of the example.  The loop gives two
    captions: words 0 to 7 from [word[0].start] to [word[7].end] with the
    text joined by single spaces, and word 8 alone ending at
    [word[8].end]; but the second caption is sent with [startTime] 0 and
    not with [word[8].start] = 2.4, since [currentCaption.startTime] is
    assigned under [if (i === 0)] only. *)
Theorem format_captions_nine_words_second_start :
  format_captions (Some nine_words) =
    [ {| text := "hi there this is a short test of";
         words := to_caption_word <$> take 8 nine_words;
         startTime := 0; endTime := 20#10 |};
      {| text := "it";
         words := to_caption_word <$> drop 8 nine_words;
         startTime := 0; endTime := 27#10 |} ] ∧
  startTime <$> format_captions (Some nine_words) !! 1%nat = Some 0%Q ∧
  start <$> nine_words !! 8%nat = Some (24#10)%Q ∧
  ¬ (0 == 24#10)%Q.
Proof. split; [reflexivity|]. split; [reflexivity|]. split; [reflexivity|]. done. Qed.

(** The second caption of the nine words. *)
Lemma later_captions_start_at_zero_witness :
  ∃ c, format_captions (Some nine_words) !! 1%nat = Some c ∧ startTime c = 0%Q.
Proof.
  eexists. split; [reflexivity|].
  exact (later_captions_start_at_zero nine_words 0 _ eq_refl).
Defined.

(** *** The chunks in general *)

(** [currentCaption] after the word [w] of index [i] has been added. *)
Definition grow (i : nat) (w : TranscriptionWord) (cur : Caption) : Caption :=
  {| words := words cur ++ [to_caption_word w];
     text := text cur
             +:+ (if negb (String.eqb (text cur) EmptyString) then " " else EmptyString)
             +:+ word w;
     startTime := if Nat.eqb i 0 then start w else startTime cur;
     endTime := end_ w |}.

Lemma forEach_body_grow n caps cur w i :
  forEach_body n (caps, cur) w i =
    if (8 <=? length (words (grow i w cur)))%nat || (Z.of_nat i =? Z.of_nat n - 1)%Z
    then (caps ++ [grow i w cur], fresh_caption)
    else (caps, grow i w cur).
Proof. done. Qed.

(** The loop from the word of index [length pre] on, [pre] being the words
    already seen: every caption it pushes before the last holds eight
    words, the last one holds what is left, and no word is lost. *)
Lemma forEach_chunks ws pre caps cur :
  concat (words <$> caps) ++ words cur = to_caption_word <$> pre →
  (length (words cur) < 8)%nat →
  ws ≠ [] →
  ∃ full c,
    forEach (length pre + length ws) ws (length pre) (caps, cur)
      = (caps ++ full ++ [c], fresh_caption) ∧
    Forall (λ c, length (words c) = 8%nat) full ∧
    (1 ≤ length (words c) ≤ 8)%nat ∧
    concat (words <$> (caps ++ full ++ [c])) = to_caption_word <$> (pre ++ ws).
Proof.
  revert pre caps cur. induction ws as [|w ws IH]; intros pre caps cur Hcat Hlen Hne; [done|].
  cbn [forEach]. rewrite forEach_body_grow.
  assert (length (words (grow (length pre) w cur)) = S (length (words cur))) as Hgrow.
  { simpl. rewrite length_app. simpl. lia. }
  assert (concat (words <$> caps) ++ words (grow (length pre) w cur)
          = to_caption_word <$> (pre ++ [w])) as Hcat'.
  { simpl. by rewrite app_assoc, Hcat, fmap_app. }
  destruct ws as [|w' ws].
  - assert ((Z.of_nat (length pre) =? Z.of_nat (length pre + length [w]) - 1)%Z = true)
      as -> by (apply Z.eqb_eq; simpl length; lia).
    rewrite orb_true_r. cbn [forEach].
    exists [], (grow (length pre) w cur). split; [done|]. split; [done|].
    split; [lia|]. simpl app.
    by rewrite fmap_app, concat_app; simpl; rewrite app_nil_r.
  - assert ((Z.of_nat (length pre) =? Z.of_nat (length pre + length (w :: w' :: ws)) - 1)%Z
            = false) as -> by (apply Z.eqb_neq; simpl length; lia).
    rewrite orb_false_r.
    replace (length pre + length (w :: w' :: ws))%nat
      with (length (pre ++ [w]) + length (w' :: ws))%nat
      by (rewrite length_app; simpl; lia).
    replace (S (length pre)) with (length (pre ++ [w])) by (rewrite length_app; simpl; lia).
    destruct (8 <=? length (words (grow (length pre) w cur)))%nat eqn:Hfull.
    + apply Nat.leb_le in Hfull.
      destruct (IH (pre ++ [w]) (caps ++ [grow (length pre) w cur]) fresh_caption)
        as (full & c & Hrun & Hfulls & Hc & Hall).
      { rewrite fmap_app, concat_app. simpl. by rewrite !app_nil_r. }
      { simpl. lia. }
      { done. }
      exists (grow (length pre) w cur :: full), c.
      rewrite Hrun, <-!app_assoc in *. simpl app in *.
      split; [done|]. split; [constructor; [lia|done]|]. split; [done|]. done.
    + apply Nat.leb_gt in Hfull.
      destruct (IH (pre ++ [w]) caps (grow (length pre) w cur))
        as (full & c & Hrun & Hfulls & Hc & Hall); [done|done|done|].
      exists full, c. rewrite Hrun, <-!app_assoc in *. done.
Qed.

Lemma length_concat_full (full : list Caption) :
  Forall (λ c, length (words c) = 8%nat) full →
  length (concat (words <$> full)) = (8 * length full)%nat.
Proof.
  induction 1 as [|c full Hc _ IH]; [done|].
  rewrite fmap_cons. simpl concat. rewrite length_app, Hc, IH. simpl length. lia.
Qed.

(** The captions of any word list: together they hold every word once, in
    order; each holds between one and eight words, and every caption but
    the last holds exactly eight; there are as many captions as eights of
    words, rounded up. *)
Theorem format_captions_partition (ws : list TranscriptionWord) :
  let cs := format_captions (Some ws) in
  concat (words <$> cs) = to_caption_word <$> ws ∧
  Forall (λ c, 1 ≤ length (words c) ≤ 8)%nat cs ∧
  (∀ k c, cs !! k = Some c → (S k < length cs)%nat → length (words c) = 8%nat) ∧
  length cs = ((length ws + 7) / 8)%nat.
Proof.
  destruct ws as [|w ws]; [done|]. cbv zeta. unfold format_captions.
  destruct (forEach_chunks (w :: ws) [] [] fresh_caption) as (full & c & Hrun & Hfull & Hc & Hall);
    [done|simpl; lia|done|].
  rewrite !app_nil_l in Hall.
  change (forEach (length (w :: ws)) (w :: ws) 0 ([], fresh_caption)
          = (full ++ [c], fresh_caption)) in Hrun.
  rewrite Hrun. simpl fst. split_and!.
  - done.
  - apply Forall_app. split; [|by constructor].
    eapply Forall_impl; [done|]. simpl. intros c' ->. lia.
  - intros k c' Hk Hlt. rewrite length_app in Hlt. simpl in Hlt.
    apply lookup_app_Some in Hk as [Hk|[Hge Hk]].
    + by eapply (proj1 (Forall_lookup _ _) Hfull).
    + apply lookup_lt_Some in Hk. simpl in Hk. lia.
  - apply (f_equal length) in Hall.
    rewrite fmap_app, concat_app, !length_app, length_fmap, length_concat_full in Hall by done.
    simpl in Hall. rewrite app_nil_r in Hall. rewrite length_app. simpl length.
    apply (Nat.div_unique _ 8 _ (length (words c) - 1)); lia.
Qed.

(** The loop keeps an invariant [I] of [currentCaption] and gives every
    caption it pushes the property [Q], if adding a word does. *)
Lemma forEach_Forall (Pw : TranscriptionWord → Prop) (I Q : Caption → Prop) :
  I fresh_caption →
  (∀ i w cur, Pw w → I cur → I (grow i w cur) ∧ Q (grow i w cur)) →
  ∀ ws n i caps cur,
    Forall Pw ws → I cur → Forall Q caps →
    Forall Q (fst (forEach n ws i (caps, cur))) ∧ I (snd (forEach n ws i (caps, cur))).
Proof.
  intros Hfresh Hgrow. induction ws as [|w ws IH]; intros n i caps cur Hws Hcur Hcaps; [done|].
  apply Forall_cons in Hws as [Hw Hws]. cbn [forEach]. rewrite forEach_body_grow.
  destruct (Hgrow i w cur Hw Hcur) as [HI HQ].
  destruct (_ || _); apply IH; try done.
  apply Forall_app. split; [done|by constructor].
Qed.

Lemma concat_snoc (sep : string) (l : list string) (x : string) :
  l ≠ [] → String.concat sep (l ++ [x]) = String.concat sep l +:+ sep +:+ x.
Proof.
  induction l as [|y l IH]; [done|]. intros _. destruct l as [|z l]; [done|].
  change (y +:+ sep +:+ String.concat sep ((z :: l) ++ [x])
          = (y +:+ sep +:+ String.concat sep (z :: l)) +:+ sep +:+ x).
  rewrite IH by done. by rewrite !Str.append_assoc.
Qed.

(** When no word is the empty string, the text of every caption is its
    words joined by single spaces. *)
Theorem format_captions_text (ws : list TranscriptionWord) :
  Forall (λ w, word w ≠ EmptyString) ws →
  Forall (λ c, text c = String.concat " " (cw_text <$> words c)) (format_captions (Some ws)).
Proof.
  intros Hws. unfold format_captions.
  apply (forEach_Forall (λ w, word w ≠ EmptyString)
           (λ c, text c = String.concat " " (cw_text <$> words c)
                 ∧ (text c = EmptyString → words c = []))
           (λ c, text c = String.concat " " (cw_text <$> words c))); try done.
  intros i w cur Hw [Htext Hempty].
  assert (text (grow i w cur) = String.concat " " (cw_text <$> words (grow i w cur))) as Hnew.
  { cbn [grow text words]. rewrite fmap_app. cbn [fmap list_fmap to_caption_word cw_text].
    destruct (String.eqb_spec (text cur) EmptyString) as [He|Hne].
    - rewrite He, (Hempty He). done.
    - cbn [negb]. rewrite concat_snoc, <-Htext; [done|].
      intros Hnil. apply fmap_nil_inv in Hnil. apply Hne. by rewrite Htext, Hnil. }
  split; [split|]; [done| |done].
  cbn [grow text words]. intros He. exfalso. apply Hw.
  destruct (text cur); [by destruct (negb _)|done].
Qed.

(** Every caption ends when its last word ends. *)
Theorem format_captions_end_times (ws : list TranscriptionWord) :
  Forall (λ c, cw_endTime <$> last (words c) = Some (endTime c)) (format_captions (Some ws)).
Proof.
  unfold format_captions.
  apply (forEach_Forall (λ _, True) (λ _, True)
           (λ c, cw_endTime <$> last (words c) = Some (endTime c))); try done.
  - intros i w cur _ _. split; [done|]. cbn [grow words endTime]. by rewrite last_snoc.
  - by apply Forall_true.
Qed.

Lemma format_captions_text_witness :
  Forall (λ w, word w ≠ EmptyString) nine_words ∧
  Forall (λ c, text c = String.concat " " (cw_text <$> words c))
    (format_captions (Some nine_words)).
Proof.
  assert (Forall (λ w, word w ≠ EmptyString) nine_words) as Hws
    by (repeat constructor; discriminate).
  split; [exact Hws|]. exact (format_captions_text nine_words Hws).
Defined.

End Captions.

(** ** The storage directory: [DELETE /file/:filename] and [POST /clip] *)

Module Files.

(** A path is the list of its segments from the root; the file system
    maps the paths that exist to what is there. *)
Record node := Node {
  is_dir : bool;
  size : N;
}.

Definition file (n : N) : node := Node false n.

(** [fs.existsSync(p)] *)
Definition existsSync (fs : gmap (list string) node) (p : list string) : bool :=
  bool_decide (is_Some (fs !! p)).

(** [fs.unlinkSync(p)]: removes a file; throws ([None]) when [p] is
    absent or a directory. *)
Definition unlinkSync (fs : gmap (list string) node) (p : list string)
    : option (gmap (list string) node) :=
  match fs !! p with
  | Some nd => if is_dir nd then None else Some (delete p fs)
  | None => None
  end.

(** The name of [p] when [p] is an entry of the directory [dir]. *)
Definition entry_of (dir p : list string) : option string :=
  if decide (take (length dir) p = dir ∧ length p = S (length dir))
  then last p else None.

(** [fs.readdirSync(dir)]: the names of the entries of [dir], in the
    order the system lists them. *)
Definition readdirSync (fs : gmap (list string) node) (dir : list string) : list string :=
  omap (λ kv, entry_of dir kv.1) (map_to_list fs).

Definition backslash : string := String "092"%char EmptyString.

(** The filter of [POST /clip] and [POST /transcribe]:
    [f.endsWith('.mp4') && !f.startsWith('clip_')]. *)
Definition is_source (f : string) : bool :=
  Str.endsWith f ".mp4" && negb (Str.startsWith f "clip_").

(** [files.filter(...).sort().reverse()]; [sort()] without a comparator
    orders strings by their code units. *)
Definition videoFiles (files : list string) : list string :=
  reverse (merge_sort String.le (filter (λ f, is_source f = true) files)).

(** [files.filter(f => f.endsWith('.m4a')).sort().reverse()] of [server.js]. *)
Definition audioFiles (files : list string) : list string :=
  reverse (merge_sort String.le (filter (λ f, Str.endsWith f ".m4a" = true) files)).

(** What [ffmpeg] is asked to do: the pieces the command line is built
    from.  [-t ${duration}] is kept as the two operands of
    [duration = endTime - startTime]. *)
Inductive codec := CopyAll | CopyVideoAac | Mp3Audio.

Record ffmpeg := {
  ss : jsval;
  input : list string;
  audio_input : option (list string);
  t_end : jsval;
  t_start : jsval;
  codecs : codec;
  output : list string;
}.

(** What a handler does to the outside, in order. *)
Inductive action :=
| Readdir
| Exec (cmd : ffmpeg)
| HttpPost (audio : list string)
| Unlink (p : list string)
| Respond (r : response).

Section Platform.

(** [process.platform === 'win32'], the directory [DOWNLOAD_DIR]
    resolved from [__dirname], and the port of the download URLs. *)
Variable isWindows : bool.
Variable DOWNLOAD_DIR : list string.
Variable PORT : N.

(** [path.join(dir, name)]: the segments of [name] are walked from
    [dir]; an empty segment or [.] stays, [..] goes up. *)
Definition is_sep (c : ascii) : bool :=
  Ascii.eqb c "/"%char || (isWindows && Ascii.eqb c "092"%char).

Fixpoint segments (s : string) : list string :=
  match s with
  | EmptyString => [EmptyString]
  | String c s' =>
      if is_sep c then EmptyString :: segments s'
      else match segments s' with
           | seg :: rest => String c seg :: rest
           | [] => [String c EmptyString]
           end
  end.

Definition enter (dir : list string) (seg : string) : list string :=
  if String.eqb seg EmptyString || String.eqb seg "." then dir
  else if String.eqb seg ".." then removelast dir
  else dir ++ [seg].

Definition path_join (dir : list string) (name : string) : list string :=
  foldl enter dir (segments name).

(** [DELETE /file/:filename] *)
Definition delete_file (v : variant) (filename : string)
    (fs : gmap (list string) node) : gmap (list string) node * response :=
  if match v with
     | ServerTs => Str.includes filename ".." || Str.includes filename "/"
                   || Str.includes filename backslash
     | ServerJs => false
     end
  then (fs, json 400 [("error", JStr "Invalid filename")])
  else
    let filePath := path_join DOWNLOAD_DIR filename in
    if existsSync fs filePath then
      match unlinkSync fs filePath with
      | Some fs' => (fs', json 200 [("success", JBool true)])
      | None => (fs, uncaught v)
      end
    else (fs, json 404 [("error", JStr "File not found")]).

(** The checks at the head of [POST /clip]; [Some r] is the early
    [return res.status(400)...]. *)
Definition validate_clip (v : variant) (startTime endTime : jsval) : option response :=
  match v with
  | ServerJs =>
      if is_undefined startTime || is_undefined endTime
      then Some (json 400 [("error", JStr "startTime and endTime are required")])
      else None
  | ServerTs =>
      match startTime, endTime with
      | JNum s, JNum e =>
          if num_lt s 0 || num_le e s
          then Some (json 400 [("error", JStr "Invalid time range")])
          else None
      | _, _ => Some (json 400 [("error", JStr "startTime and endTime must be numbers")])
      end
  end.

(** [POST /clip] up to the call of [exec]; [now] is [Date.now()]. *)
Definition clip (v : variant) (startTime endTime : jsval) (now : N)
    (fs : gmap (list string) node) : list action :=
  match validate_clip v startTime endTime with
  | Some r => [Respond r]
  | None =>
      let outputFile := path_join DOWNLOAD_DIR ("clip_" +:+ pretty now +:+ ".mp4") in
      let files := readdirSync fs DOWNLOAD_DIR in
      Readdir ::
      match videoFiles files with
      | [] => [Respond (json 404 [("error", JStr "No video file found")])]
      | video :: _ =>
          let videoPath := path_join DOWNLOAD_DIR video in
          let matchingAudio :=
            match v with
            | ServerJs =>
                let videoPrefix := Str.before_dot video in
                head (filter (λ a, Str.startsWith a videoPrefix = true) (audioFiles files))
            | ServerTs => None
            end in
          match matchingAudio with
          | Some audio =>
              [Exec {| ss := startTime; input := videoPath;
                       audio_input := Some (path_join DOWNLOAD_DIR audio);
                       t_end := endTime; t_start := startTime;
                       codecs := CopyVideoAac; output := outputFile |}]
          | None =>
              [Exec {| ss := startTime; input := videoPath; audio_input := None;
                       t_end := endTime; t_start := startTime;
                       codecs := CopyAll; output := outputFile |}]
          end
      end
  end.

(** The callback of [exec] in [POST /clip]: [error] is whether ffmpeg
    failed, [stderr] its diagnostic output, [fs] the file system when
    the callback runs. *)
Definition clip_done (now : N) (error : bool) (stderr : string)
    (fs : gmap (list string) node) : response :=
  let name := "clip_" +:+ pretty now +:+ ".mp4" in
  let outputFile := path_join DOWNLOAD_DIR name in
  if error then
    json 500 [("error", JStr "Clip creation failed");
              ("details", JStr (String.substring (String.length stderr - 300) 300 stderr))]
  else
    match fs !! outputFile with
    | Some nd =>
        json 200 [("success", JBool true); ("filename", JStr name);
                  ("url", JStr ("http://localhost:" +:+ pretty PORT +:+ "/downloads/" +:+ name));
                  ("size", num_of_N (size nd))]
    | None => json 500 [("error", JStr "Clip file not created")]
    end.

(** [GET /files]: one row per entry of the storage directory;
    [fs.statSync] throws on a path that does not exist. *)
Definition file_row (filename : string) (nd : node) : jsval :=
  JObject [("filename", JStr filename);
           ("size", num_of_N (size nd));
           ("url", JStr ("http://localhost:" +:+ pretty PORT +:+ "/downloads/" +:+ filename))].

Definition list_files (v : variant) (fs : gmap (list string) node) : response :=
  match mapM (λ filename, file_row filename <$> fs !! path_join DOWNLOAD_DIR filename)
             (readdirSync fs DOWNLOAD_DIR) with
  | Some rows => json 200 [("files", JArr rows)]
  | None => uncaught v
  end.

(** *** String facts behind the checks *)

Lemma includes_cons_false (c : ascii) (s p : string) :
  Str.includes (String c s) p = false → Str.includes s p = false.
Proof. simpl. by intros [_ ?]%orb_false_iff. Qed.

Lemma includes_char_head (c : ascii) (s : string) :
  Str.includes (String c s) (String c EmptyString) = true.
Proof. apply Str.includes_prefix. rewrite Str.prefix_cons. by destruct s. Qed.

Lemma segments_plain (s : string) :
  Str.includes s "/" = false → Str.includes s backslash = false →
  segments s = [s].
Proof.
  induction s as [|c s IH]; intros Hslash Hback; [done|].
  assert (is_sep c = false) as Hsep.
  { unfold is_sep. apply orb_false_iff. split.
    - apply Ascii.eqb_neq. intros ->.
      by rewrite (includes_char_head "/"%char s) in Hslash.
    - apply andb_false_iff. right. apply Ascii.eqb_neq. intros ->.
      unfold backslash in Hback.
      by rewrite (includes_char_head "092"%char s) in Hback. }
  simpl. rewrite Hsep, IH; eauto using includes_cons_false.
Qed.

Lemma path_join_plain (dir : list string) (name : string) :
  Str.includes name ".." = false → Str.includes name "/" = false →
  Str.includes name backslash = false →
  path_join dir name =
    if decide (name = EmptyString ∨ name = ".") then dir else dir ++ [name].
Proof.
  intros Hdots Hslash Hback. unfold path_join.
  rewrite segments_plain by done. simpl. unfold enter.
  destruct (String.eqb_spec name EmptyString) as [->|Hne]; [by rewrite decide_True by auto|].
  destruct (String.eqb_spec name ".") as [->|Hnd]; [by rewrite decide_True by auto|].
  destruct (String.eqb_spec name "..") as [->|_]; [done|].
  simpl. rewrite decide_False; [done|]. by intros [?|?].
Qed.

(** *** The directory listing *)

Lemma entry_of_Some (dir p : list string) (name : string) :
  entry_of dir p = Some name ↔ p = dir ++ [name].
Proof.
  unfold entry_of. split.
  - case_decide as H; [|done]. destruct H as [Htake Hlen]. intros Hlast.
    rewrite <-(take_drop (length dir) p) in Hlast |- *. rewrite Htake in *.
    assert (length (drop (length dir) p) = 1%nat) as H1.
    { rewrite length_drop. lia. }
    destruct (drop (length dir) p) as [|x [|??]]; simplify_eq/=.
    rewrite last_snoc in Hlast. by simplify_eq.
  - intros ->. rewrite decide_True.
    + by rewrite last_snoc.
    + rewrite take_app_length, length_app. simpl. split; [done|lia].
Qed.

Lemma elem_of_readdirSync (fs : gmap (list string) node) (dir : list string) (name : string) :
  name ∈ readdirSync fs dir ↔ is_Some (fs !! (dir ++ [name])).
Proof.
  unfold readdirSync. rewrite list_elem_of_omap. split.
  - intros ([p nd] & Hin & Hentry). apply entry_of_Some in Hentry. simpl in *. subst.
    apply elem_of_map_to_list in Hin. eauto.
  - intros [nd Hnd]. exists (dir ++ [name], nd). split.
    + by apply elem_of_map_to_list.
    + by apply entry_of_Some.
Qed.

(** *** Source selection *)






(** *** Validation of the time range *)

Lemma range_check (s e : Q) :
  num_lt s 0 || num_le e s = true ↔ (s < 0 ∨ e <= s)%Q.
Proof.
  unfold num_lt, num_le.
  rewrite orb_true_iff, negb_true_iff, Qle_bool_iff, <-not_true_iff_false, Qle_bool_iff.
  split; (intros [H|H]; [left|by right]).
  - by apply Qnot_le_lt.
  - by apply Qlt_not_le.
Qed.

(** The TypeScript server rejects a range with [endTime <= startTime]
    or [startTime < 0] with status 400 as its only action, and no other
    pair of numbers. *)
Lemma clip_ts_validates_range (s e : Q) (now : N) (fs : gmap (list string) node) :
  ((s < 0 ∨ e <= s)%Q →
     clip ServerTs (JNum s) (JNum e) now fs =
       [Respond (json 400 [("error", JStr "Invalid time range")])]) ∧
  ((0 <= s ∧ s < e)%Q →
     validate_clip ServerTs (JNum s) (JNum e) = None ∧
     ∃ rest, clip ServerTs (JNum s) (JNum e) now fs = Readdir :: rest).
Proof.
  unfold clip, validate_clip. split.
  - intros H%range_check. by rewrite H.
  - intros [H0 Hlt].
    destruct (num_lt s 0 || num_le e s) eqn:Hc.
    + apply range_check in Hc as [Hc|Hc].
      * by apply Qlt_not_le in Hc.
      * by apply Qle_not_lt in Hc.
    + eauto.
Qed.

(** *** Deleting a stored file *)

(** The TypeScript server answers 400 to a name with [..], a slash or
    a backslash and leaves the file system as it is. *)
Lemma delete_file_ts_rejects_traversal (filename : string) (fs : gmap (list string) node) :
  Str.includes filename ".." = true ∨ Str.includes filename "/" = true ∨
  Str.includes filename backslash = true →
  delete_file ServerTs filename fs = (fs, json 400 [("error", JStr "Invalid filename")]).
Proof.
  intros H. unfold delete_file.
  assert (Str.includes filename ".." || Str.includes filename "/"
          || Str.includes filename backslash = true) as ->; [|done].
  rewrite !orb_true_iff. tauto.
Qed.

(** In the TypeScript server a name that passes the check addresses the
    entry of that name in the storage directory: the file is removed and
    the answer is [success], or nothing is there and the answer is 404. *)
Lemma delete_file_ts_plain (filename : string) (fs : gmap (list string) node) :
  Str.includes filename ".." = false → Str.includes filename "/" = false →
  Str.includes filename backslash = false →
  filename ≠ EmptyString → filename ≠ "." →
  match fs !! (DOWNLOAD_DIR ++ [filename]) with
  | Some nd =>
      is_dir nd = false →
      delete_file ServerTs filename fs =
        (delete (DOWNLOAD_DIR ++ [filename]) fs, json 200 [("success", JBool true)])
  | None =>
      delete_file ServerTs filename fs = (fs, json 404 [("error", JStr "File not found")])
  end.
Proof.
  intros Hdots Hslash Hback Hne Hnd. unfold delete_file.
  rewrite Hdots, Hslash, Hback. simpl.
  rewrite path_join_plain by done. rewrite decide_False by (by intros [?|?]).
  unfold existsSync, unlinkSync.
  destruct (fs !! (DOWNLOAD_DIR ++ [filename])) as [nd|] eqn:Hfs.
  - intros ->. rewrite bool_decide_eq_true_2 by eauto. done.
  - rewrite bool_decide_eq_false_2; [done|]. by intros [??].
Qed.

(** In the TypeScript server, whatever the name, a path whose content
    changes is an entry of the storage directory, provided the storage
    directory itself is a directory. *)
Lemma delete_file_ts_confined (filename : string) (fs : gmap (list string) node)
    (p : list string) :
  is_dir <$> fs !! DOWNLOAD_DIR = Some true →
  (delete_file ServerTs filename fs).1 !! p ≠ fs !! p →
  p = DOWNLOAD_DIR ++ [filename] ∧ Str.includes filename "/" = false ∧
  Str.includes filename ".." = false ∧ Str.includes filename backslash = false.
Proof.
  intros Hdir. unfold delete_file.
  destruct (Str.includes filename "..") eqn:Hdots; [done|].
  destruct (Str.includes filename "/") eqn:Hslash; [done|].
  destruct (Str.includes filename backslash) eqn:Hback; [done|]. simpl.
  rewrite path_join_plain by done.
  destruct (existsSync _ _); [|done].
  unfold unlinkSync. case_decide as Hname.
  - destruct (fs !! DOWNLOAD_DIR) as [nd|]; simplify_eq/=.
    by destruct (is_dir nd).
  - destruct (fs !! (DOWNLOAD_DIR ++ [filename])) as [nd|] eqn:Hfs; [|done].
    destruct (is_dir nd); [done|]. simpl. intros Hp.
    destruct (decide (p = DOWNLOAD_DIR ++ [filename])) as [->|Hne]; [done|].
    by rewrite lookup_delete_ne in Hp.
Qed.

(** *** Where [path.join] can lead *)

(** The first segment of a name is what the name starts with. *)
Lemma segments_head (s : string) :
  ∃ seg rest, segments s = seg :: rest ∧ String.prefix seg s = true.
Proof.
  induction s as [|c s (seg & rest & Hs & Hpre)]; [by eexists _, _|].
  simpl segments. destruct (is_sep c); [by eexists _, _|].
  rewrite Hs. eexists _, _. split; [done|]. by rewrite Str.prefix_cons.
Qed.

(** A name with a segment [..] includes two dots. *)
Lemma dots_segment_includes (s : string) :
  ".." ∈ segments s → Str.includes s ".." = true.
Proof.
  induction s as [|c s IH]; [by intros ?%list_elem_of_singleton|].
  simpl segments. destruct (is_sep c).
  - intros [?|Hin]%elem_of_cons; [done|].
    cbn [Str.includes]. rewrite (IH Hin). apply orb_true_r.
  - destruct (segments_head s) as (seg & rest & Hs & Hpre). rewrite Hs in *.
    intros [Heq|Hin]%elem_of_cons.
    + injection Heq as <- <-. apply Str.includes_prefix.
      by rewrite Str.prefix_cons.
    + cbn [Str.includes]. rewrite IH; [apply orb_true_r|]. by right.
Qed.

Lemma foldl_enter_prefix (segs : list string) (dir : list string) :
  ".." ∉ segs → dir `prefix_of` foldl enter dir segs.
Proof.
  revert dir. induction segs as [|seg segs IH]; intros dir Hdots; [done|].
  apply not_elem_of_cons in Hdots as [Hne Hdots]. simpl foldl.
  etrans; [|by apply IH]. unfold enter.
  destruct (_ || _); [done|].
  destruct (String.eqb_spec seg "..") as [->|_]; [done|].
  by apply prefix_app_r.
Qed.

(** Joined to a name without two dots in a row, a directory stays a
    prefix of the result. *)
Lemma path_join_below (dir : list string) (name : string) :
  Str.includes name ".." = false → dir `prefix_of` path_join dir name.
Proof.
  intros Hdots. apply foldl_enter_prefix. intros Hin%dots_segment_includes. congruence.
Qed.

(** [DELETE /file/:filename] of either server, for a name without two
    dots in a row: whatever separators the name holds, the only path
    whose content can change lies in the storage directory or below. *)
Theorem delete_file_below_storage (v : variant) (filename : string)
    (fs : gmap (list string) node) (p : list string) :
  Str.includes filename ".." = false →
  (delete_file v filename fs).1 !! p ≠ fs !! p →
  DOWNLOAD_DIR `prefix_of` p ∧ p = path_join DOWNLOAD_DIR filename ∧
  is_dir <$> fs !! p = Some false ∧ (delete_file v filename fs).1 = delete p fs.
Proof.
  intros Hdots. unfold delete_file.
  destruct (match v with ServerTs => _ | ServerJs => _ end); [done|]. simpl.
  destruct (existsSync _ _); [|done]. unfold unlinkSync.
  destruct (fs !! path_join DOWNLOAD_DIR filename) as [nd|] eqn:Hfs; [|done].
  destruct (is_dir nd) eqn:Hdir; [done|]. simpl. intros Hp.
  destruct (decide (p = path_join DOWNLOAD_DIR filename)) as [->|Hne].
  - split; [by apply path_join_below|]. by rewrite Hfs, <-Hdir.
  - by rewrite lookup_delete_ne in Hp.
Qed.

(** *** The listing and the selection of sources *)

Lemma NoDup_readdirSync (fs : gmap (list string) node) (dir : list string) :
  NoDup (readdirSync fs dir).
Proof.
  unfold readdirSync.
  assert (NoDup (map_to_list fs).*1) as Hnd by apply NoDup_fst_map_to_list.
  induction (map_to_list fs) as [|[p nd] l IH]; [constructor|].
  rewrite fmap_cons in Hnd. apply NoDup_cons in Hnd as [Hp Hnd]. simpl omap.
  destruct (entry_of dir p) as [name|] eqn:Hname; [|by apply IH].
  apply NoDup_cons. split; [|by apply IH].
  intros ([q nd'] & Hin & Hq)%list_elem_of_omap. simpl in Hq.
  apply entry_of_Some in Hname, Hq. subst. apply Hp.
  apply list_elem_of_fmap. by exists (dir ++ [name], nd').
Qed.

(** [GET /files], when the names of the entries resolve to the entries
    themselves (no entry is named like a path): the answer is 200 with
    one row per entry, no entry twice, each row with the size of its
    entry. *)
Theorem list_files_rows (v : variant) (fs : gmap (list string) node) :
  (∀ name, name ∈ readdirSync fs DOWNLOAD_DIR →
     path_join DOWNLOAD_DIR name = DOWNLOAD_DIR ++ [name]) →
  ∃ nodes,
    Forall2 (λ name nd, fs !! (DOWNLOAD_DIR ++ [name]) = Some nd)
            (readdirSync fs DOWNLOAD_DIR) nodes ∧
    NoDup (readdirSync fs DOWNLOAD_DIR) ∧
    list_files v fs =
      json 200 [("files", JArr (zip_with file_row (readdirSync fs DOWNLOAD_DIR) nodes))].
Proof.
  intros Hplain. unfold list_files.
  assert (∀ name, name ∈ readdirSync fs DOWNLOAD_DIR →
            is_Some (fs !! (DOWNLOAD_DIR ++ [name]))) as Hthere
    by (intros name; apply elem_of_readdirSync).
  pose proof (NoDup_readdirSync fs DOWNLOAD_DIR) as Hnd.
  induction (readdirSync fs DOWNLOAD_DIR) as [|name names IH].
  { exists []. by repeat split; [constructor|]. }
  apply NoDup_cons in Hnd as Hnd'. destruct Hnd' as [_ Hnd'].
  destruct IH as (nodes & Hnodes & _ & Hrows); [set_solver..|done|].
  destruct (Hthere name) as [nd Hname]; [set_solver|].
  exists (nd :: nodes). split; [by constructor|]. split; [done|].
  cbn [mapM]. rewrite Hplain, Hname by set_solver. simpl.
  destruct (mapM _ names) as [rows|]; [|by destruct v].
  by injection Hrows as ->.
Qed.

(** The sources [POST /clip] and [POST /transcribe] choose from are the
    entries ending in [.mp4] that do not start with [clip_], latest name
    first, in whatever order the directory was listed. *)
Theorem videoFiles_listing_order (files files' : list string) :
  files ≡ₚ files' →
  videoFiles files = videoFiles files' ∧
  Sorted (flip String.le) (videoFiles files) ∧
  ∀ f, f ∈ videoFiles files ↔ f ∈ files ∧ is_source f = true.
Proof.
  intros Hperm. unfold videoFiles. split_and!.
  - f_equal. apply (Sorted_unique String.le).
    + apply Sorted_merge_sort, _.
    + apply Sorted_merge_sort, _.
    + by rewrite !merge_sort_Permutation, Hperm.
  - apply Sorted_reverse. apply Sorted_merge_sort, _.
  - intros f. rewrite elem_of_reverse, merge_sort_Permutation, list_elem_of_filter. tauto.
Qed.

(** *** The answer of [POST /clip] *)

Lemma substring_all (m : nat) (s : string) :
  (String.length s ≤ m)%nat → String.substring 0 m s = s.
Proof.
  revert m. induction s as [|c s IH]; intros [|m] Hm; simpl in *; try done; [lia|].
  rewrite IH; [done|lia].
Qed.

Lemma substring_skip (n m : nat) (s : string) :
  (n ≤ String.length s)%nat → (String.length s - n ≤ m)%nat →
  ∃ a, s = a +:+ String.substring n m s ∧ String.length a = n.
Proof.
  revert s. induction n as [|n IH]; intros s Hn Hm.
  - exists EmptyString. split; [|done]. rewrite substring_all; [done|lia].
  - destruct s as [|c s]; simpl in Hn; [lia|].
    destruct (IH s) as (a & Hs & Ha); [lia|simpl in Hm; lia|].
    exists (String c a). split; [|by simpl; rewrite Ha].
    rewrite Str.app_cons. cbn [String.substring]. by rewrite <-Hs.
Qed.

Lemma length_append (a b : string) :
  String.length (a +:+ b) = (String.length a + String.length b)%nat.
Proof. induction a as [|c a IH]; [done|]. rewrite Str.app_cons. simpl. by rewrite IH. Qed.

(** The callback of [exec] in [POST /clip] answers 200 only when ffmpeg
    reported no error and the output file is there; on an error the
    details it sends are the end of ffmpeg's diagnostics, the whole of
    it up to 300 characters. *)
Theorem clip_done_answers (now : N) (error : bool) (stderr : string)
    (fs : gmap (list string) node) :
  (res_status (clip_done now error stderr fs) = 200%nat ↔
     error = false ∧
     is_Some (fs !! path_join DOWNLOAD_DIR ("clip_" +:+ pretty now +:+ ".mp4"))) ∧
  ∃ a details,
    stderr = a +:+ details ∧
    String.length details = (String.length stderr `min` 300)%nat ∧
    clip_done now true stderr fs =
      json 500 [("error", JStr "Clip creation failed"); ("details", JStr details)].
Proof.
  split.
  - unfold clip_done. destruct error; [by split; [|intros [? _]]|].
    destruct (fs !! _) as [nd|]; simpl; [by eauto|].
    split; [done|]. by intros [_ [? ?]].
  - destruct (substring_skip (String.length stderr - 300) 300 stderr) as (a & Hs & Ha);
      [lia..|].
    exists a, (String.substring (String.length stderr - 300) 300 stderr).
    split; [done|]. split; [|done].
    apply (f_equal String.length) in Hs. rewrite length_append in Hs. lia.
Qed.

(** *** The names the servers give their files *)

Lemma chars_app (a b : string) :
  String.list_ascii_of_string (a +:+ b)
  = String.list_ascii_of_string a ++ String.list_ascii_of_string b.
Proof. induction a as [|c a IH]; [done|]. rewrite Str.app_cons. simpl. by rewrite IH. Qed.

(** [Date.now()] prints as digits. *)
Lemma pretty_N_go_digits (x : N) (s : string) :
  Forall (λ c, is_Some (Ascii.is_nat c)) (String.list_ascii_of_string s) →
  Forall (λ c, is_Some (Ascii.is_nat c)) (String.list_ascii_of_string (pretty_N_go x s)).
Proof.
  revert s. induction (N.lt_wf_0 x) as [x _ IH]; intros s Hs.
  assert (x = 0 ∨ 0 < x)%N as [->|Hx] by lia; [by rewrite pretty_N_go_0|].
  rewrite pretty_N_go_step by done. apply IH; [by apply N.div_lt|].
  simpl. constructor; [|done]. unfold pretty_N_char. repeat case_match; by eexists.
Qed.

Lemma pretty_N_digits (n : N) :
  Forall (λ c, is_Some (Ascii.is_nat c)) (String.list_ascii_of_string (pretty n)).
Proof.
  unfold pretty, pretty_N. case_decide; [by repeat constructor|].
  apply pretty_N_go_digits. constructor.
Qed.

Lemma includes_absent (c : ascii) (p s : string) :
  Forall (λ x, x ≠ c) (String.list_ascii_of_string s) →
  Str.includes s (String c p) = false.
Proof.
  induction s as [|a s IH]; [done|]. intros [Ha Hs]%Forall_cons.
  cbn [Str.includes String.prefix]. destruct (ascii_dec c a) as [->|_]; [done|].
  by apply IH.
Qed.

(** A name made of a fixed head, the digits of a number and a fixed
    tail, with no separator in head or tail, names an entry of the
    directory it is joined to. *)
Lemma path_join_generated (dir : list string) (c : ascii) (a b : string) (n : N) :
  c ≠ "."%char →
  Forall (λ x, x ≠ "/"%char ∧ x ≠ "092"%char)
    (String.list_ascii_of_string (String c a +:+ b)) →
  path_join dir (String c a +:+ pretty n +:+ b) = dir ++ [String c a +:+ pretty n +:+ b].
Proof.
  intros Hc Hab.
  assert (Forall (λ x, x ≠ "/"%char ∧ x ≠ "092"%char)
            (String.list_ascii_of_string (String c a +:+ pretty n +:+ b))) as Hname.
  { rewrite !chars_app in *. apply Forall_app in Hab as [Ha Hb].
    apply Forall_app. split; [done|]. apply Forall_app. split; [|done].
    eapply Forall_impl; [apply pretty_N_digits|].
    intros x Hx. split; intros ->; by destruct Hx. }
  unfold path_join. rewrite segments_plain.
  - simpl. unfold enter. rewrite Str.app_cons.
    destruct (String.eqb_spec (String c (a +:+ pretty n +:+ b)) EmptyString); [done|].
    destruct (String.eqb_spec (String c (a +:+ pretty n +:+ b)) "."); [congruence|].
    destruct (String.eqb_spec (String c (a +:+ pretty n +:+ b)) ".."); [congruence|].
    done.
  - apply includes_absent. eapply Forall_impl; [done|]. by intros x [? _].
  - apply includes_absent. eapply Forall_impl; [done|]. by intros x [_ ?].
Qed.

Lemma endsWith_app (s p : string) : Str.endsWith (s +:+ p) p = true.
Proof.
  induction s as [|c s IH]; [destruct p; simpl; by rewrite ?Ascii.eqb_refl, ?String.eqb_refl|].
  rewrite Str.app_cons. cbn [Str.endsWith]. rewrite IH. apply orb_true_r.
Qed.

Lemma eqb_longer (s p : string) :
  (String.length p < String.length s)%nat → String.eqb s p = false.
Proof.
  intros Hlen. apply String.eqb_neq. intros ->. lia.
Qed.

Lemma endsWith_short (s p : string) :
  (String.length s < String.length p)%nat → Str.endsWith s p = false.
Proof.
  induction s as [|c s IH]; intros Hlen; cbn [Str.endsWith].
  - destruct p; [simpl in Hlen; lia|done].
  - rewrite IH by (simpl in Hlen; lia). rewrite orb_false_r.
    apply String.eqb_neq. intros <-. lia.
Qed.

(** Whether a string ends with a suffix as long as its own tail is
    decided by the tail. *)
Lemma endsWith_tail (s q p : string) :
  String.length q = String.length p →
  Str.endsWith (s +:+ q) p = String.eqb q p.
Proof.
  intros Hlen. induction s as [|c s IH].
  - change (EmptyString +:+ q) with q. destruct q as [|c q]; cbn [Str.endsWith].
    + apply orb_false_r.
    + rewrite endsWith_short by (simpl in Hlen; lia). apply orb_false_r.
  - rewrite Str.app_cons. cbn [Str.endsWith]. rewrite IH.
    rewrite eqb_longer; [done|]. simpl. rewrite length_append. lia.
Qed.

(** An entry that the filter [P] rejects does not change what is
    selected from the directory. *)
Lemma selection_frame (P : string → bool) (name : string) (nd : node)
    (fs : gmap (list string) node) :
  P name = false →
  reverse (merge_sort String.le
    (filter (λ f, P f = true) (readdirSync (<[DOWNLOAD_DIR ++ [name] := nd]> fs) DOWNLOAD_DIR)))
  = reverse (merge_sort String.le
      (filter (λ f, P f = true) (readdirSync fs DOWNLOAD_DIR))).
Proof.
  intros HP. f_equal. apply (Sorted_unique String.le).
  - apply Sorted_merge_sort, _.
  - apply Sorted_merge_sort, _.
  - rewrite !merge_sort_Permutation.
    apply NoDup_Permutation; try apply NoDup_filter, NoDup_readdirSync.
    intros f. rewrite !list_elem_of_filter, !elem_of_readdirSync.
    split; intros [Hf Hin]; (split; [done|]).
    + rewrite lookup_insert_ne in Hin; [done|]. intros [= <-]%(inj (app _)). congruence.
    + rewrite lookup_insert_ne; [done|]. intros [= <-]%(inj (app _)). congruence.
Qed.

Lemma generated_not_selected (n : N) (name : string) :
  name = "clip_" +:+ pretty n +:+ ".mp4" ∨ name = "temp_audio_" +:+ pretty n +:+ ".mp3" →
  is_source name = false ∧ Str.endsWith name ".m4a" = false.
Proof.
  intros [-> | ->]; unfold is_source.
  - assert (Str.startsWith ("clip_" +:+ pretty n +:+ ".mp4") "clip_" = true) as Hclip
      by (unfold Str.startsWith; rewrite !Str.app_cons, !Str.prefix_cons;
          by destruct (_ +:+ _)).
    rewrite Hclip, andb_false_r. split; [done|].
    by rewrite <-Str.append_assoc, endsWith_tail.
  - by rewrite <-Str.append_assoc, !endsWith_tail.
Qed.

(** The clips [POST /clip] writes and the temporary audio files
    [POST /transcribe] writes, and may leave behind, lie in the storage
    directory under their own names, and none of them is ever taken as
    a source: with or without such a file, [POST /clip] does the
    same. *)
Theorem generated_files_never_sources (v : variant) (startTime endTime : jsval)
    (now n : N) (nd : node) (fs : gmap (list string) node) (name : string) :
  name = "clip_" +:+ pretty n +:+ ".mp4" ∨ name = "temp_audio_" +:+ pretty n +:+ ".mp3" →
  path_join DOWNLOAD_DIR name = DOWNLOAD_DIR ++ [name] ∧
  videoFiles (readdirSync (<[path_join DOWNLOAD_DIR name := nd]> fs) DOWNLOAD_DIR)
    = videoFiles (readdirSync fs DOWNLOAD_DIR) ∧
  clip v startTime endTime now (<[path_join DOWNLOAD_DIR name := nd]> fs)
    = clip v startTime endTime now fs.
Proof.
  intros Hname. destruct (generated_not_selected n name Hname) as [Hsrc Haudio].
  assert (path_join DOWNLOAD_DIR name = DOWNLOAD_DIR ++ [name]) as Hpath.
  { destruct Hname as [-> | ->]; apply path_join_generated; try done;
      repeat constructor; done. }
  rewrite Hpath.
  pose proof (selection_frame is_source name nd fs Hsrc) as Hvideo.
  pose proof (selection_frame (λ f, Str.endsWith f ".m4a") name nd fs Haudio) as Haud.
  cbv beta in Haud.
  fold (videoFiles (readdirSync (<[DOWNLOAD_DIR ++ [name] := nd]> fs) DOWNLOAD_DIR)) in Hvideo.
  fold (videoFiles (readdirSync fs DOWNLOAD_DIR)) in Hvideo.
  fold (audioFiles (readdirSync (<[DOWNLOAD_DIR ++ [name] := nd]> fs) DOWNLOAD_DIR)) in Haud.
  fold (audioFiles (readdirSync fs DOWNLOAD_DIR)) in Haud.
  split; [done|]. split; [done|].
  unfold clip. by rewrite Hvideo, Haud.
Qed.


End Platform.

(** *** The two servers on the same requests *)

(** A storage directory [/srv/downloads] next to the server's own file. *)
Definition srv_downloads : list string := ["srv"; "downloads"].

Definition srv_fs : gmap (list string) node :=
  <[ ["srv"; "server.js"] := file 14000 ]>
  (<[ ["srv"; "downloads"] := Node true 4096 ]>
  (<[ ["srv"; "downloads"; "video_1000.mp4"] := file 5000000 ]>
  (<[ ["srv"; "downloads"; "clip_999.mp4"] := file 70000 ]> ∅))).

(** C9 on [server.js].  [DELETE /file/..%2Fserver.js] reaches the handler
    with [req.params.filename = '../server.js']; [server.js] joins it to
    the storage directory unchecked, so the file [/srv/server.js] outside
    the storage directory is removed and the answer is [success].  The
    TypeScript server answers 400 to the same request and removes
    nothing. *)
Theorem delete_file_js_path_traversal :
  let out := delete_file false srv_downloads ServerJs "../server.js" srv_fs in
  out.2 = json 200 [("success", JBool true)] ∧
  srv_fs !! ["srv"; "server.js"] = Some (file 14000) ∧
  out.1 !! ["srv"; "server.js"] = None ∧
  out.1 = delete ["srv"; "server.js"] srv_fs ∧
  delete_file false srv_downloads ServerTs "../server.js" srv_fs =
    (srv_fs, json 400 [("error", JStr "Invalid filename")]).
Proof. cbv zeta. repeat split; vm_compute; reflexivity. Qed.

(** C3 on [server.js].  [POST /clip] with [startTime = 40] and
    [endTime = 10] passes the only check of [server.js] (both fields are
    defined): the directory is read and ffmpeg is run on the latest
    source.  The TypeScript server answers 400 to the same request before
    it reads the directory. *)
Theorem clip_js_accepts_reversed_range :
  clip false srv_downloads ServerJs (JNum 40) (JNum 10) 1700000000000 srv_fs =
    [ Readdir;
      Exec {| ss := JNum 40;
              input := ["srv"; "downloads"; "video_1000.mp4"];
              audio_input := None;
              t_end := JNum 10; t_start := JNum 40;
              codecs := CopyAll;
              output := ["srv"; "downloads"; "clip_1700000000000.mp4"] |} ] ∧
  clip false srv_downloads ServerTs (JNum 40) (JNum 10) 1700000000000 srv_fs =
    [ Respond (json 400 [("error", JStr "Invalid time range")]) ].
Proof. split; vm_compute; reflexivity. Qed.


(** The TypeScript server on the same traversal request. *)
Lemma delete_file_ts_rejects_traversal_witness :
  Str.includes "../server.js" ".." = true ∧
  delete_file false srv_downloads ServerTs "../server.js" srv_fs =
    (srv_fs, json 400 [("error", JStr "Invalid filename")]).
Proof.
  split; [reflexivity|].
  exact (delete_file_ts_rejects_traversal false srv_downloads "../server.js" srv_fs
           (or_introl eq_refl)).
Defined.

(** The TypeScript server deleting a stored clip. *)
Lemma delete_file_ts_plain_witness :
  Str.includes "clip_999.mp4" ".." = false ∧
  Str.includes "clip_999.mp4" "/" = false ∧
  Str.includes "clip_999.mp4" backslash = false ∧
  delete_file false srv_downloads ServerTs "clip_999.mp4" srv_fs =
    (delete (srv_downloads ++ ["clip_999.mp4"]) srv_fs, json 200 [("success", JBool true)]).
Proof.
  split; [reflexivity|]. split; [reflexivity|]. split; [reflexivity|].
  assert ("clip_999.mp4" ≠ EmptyString) as Hne by discriminate.
  assert ("clip_999.mp4" ≠ ".") as Hnd by discriminate.
  exact (delete_file_ts_plain false srv_downloads "clip_999.mp4" srv_fs
           eq_refl eq_refl eq_refl Hne Hnd eq_refl).
Defined.

(** The path the TypeScript server changes on the example directory for
    the name [clip_999.mp4] is that entry of the storage directory. *)
Lemma delete_file_ts_confined_witness :
  is_dir <$> srv_fs !! srv_downloads = Some true ∧
  (delete_file false srv_downloads ServerTs "clip_999.mp4" srv_fs).1
    !! ["srv"; "downloads"; "clip_999.mp4"] ≠ srv_fs !! ["srv"; "downloads"; "clip_999.mp4"] ∧
  ["srv"; "downloads"; "clip_999.mp4"] = srv_downloads ++ ["clip_999.mp4"] ∧
  Str.includes "clip_999.mp4" "/" = false.
Proof.
  assert ((delete_file false srv_downloads ServerTs "clip_999.mp4" srv_fs).1
            !! ["srv"; "downloads"; "clip_999.mp4"]
          ≠ srv_fs !! ["srv"; "downloads"; "clip_999.mp4"]) as Hp
    by (vm_compute; discriminate).
  split; [reflexivity|]. split; [exact Hp|].
  pose proof (delete_file_ts_confined false srv_downloads "clip_999.mp4" srv_fs
                ["srv"; "downloads"; "clip_999.mp4"] eq_refl Hp) as (H1 & H2 & _).
  split; [exact H1|exact H2].
Defined.

Lemma delete_file_below_storage_witness :
  Str.includes "clip_999.mp4" ".." = false ∧
  (delete_file false srv_downloads ServerJs "clip_999.mp4" srv_fs).1
    !! ["srv"; "downloads"; "clip_999.mp4"] ≠ srv_fs !! ["srv"; "downloads"; "clip_999.mp4"] ∧
  srv_downloads `prefix_of` ["srv"; "downloads"; "clip_999.mp4"].
Proof.
  assert ((delete_file false srv_downloads ServerJs "clip_999.mp4" srv_fs).1
            !! ["srv"; "downloads"; "clip_999.mp4"]
          ≠ srv_fs !! ["srv"; "downloads"; "clip_999.mp4"]) as Hp
    by (vm_compute; discriminate).
  split; [reflexivity|]. split; [exact Hp|].
  exact (proj1 (delete_file_below_storage false srv_downloads ServerJs "clip_999.mp4" srv_fs
                  ["srv"; "downloads"; "clip_999.mp4"] eq_refl Hp)).
Defined.

Lemma srv_fs_names name :
  name ∈ readdirSync srv_fs srv_downloads →
  path_join false srv_downloads name = srv_downloads ++ [name].
Proof.
  let l := eval vm_compute in (readdirSync srv_fs srv_downloads) in
  assert (readdirSync srv_fs srv_downloads = l) as -> by (vm_compute; reflexivity).
  intros Hin.
  repeat (apply elem_of_cons in Hin as [->|Hin]; [reflexivity|]).
  by apply elem_of_nil in Hin.
Qed.

Lemma list_files_rows_witness :
  ∃ nodes,
    Forall2 (λ name nd, srv_fs !! (srv_downloads ++ [name]) = Some nd)
            (readdirSync srv_fs srv_downloads) nodes ∧
    NoDup (readdirSync srv_fs srv_downloads) ∧
    list_files false srv_downloads 3000 ServerJs srv_fs =
      json 200 [("files",
                 JArr (zip_with (file_row 3000) (readdirSync srv_fs srv_downloads) nodes))].
Proof.
  exact (list_files_rows false srv_downloads 3000 ServerJs srv_fs srv_fs_names).
Defined.

Lemma videoFiles_listing_order_witness :
  ["clip_999.mp4"; "video_1000.mp4"; "video_999.mp4"]
    ≡ₚ ["video_999.mp4"; "clip_999.mp4"; "video_1000.mp4"] ∧
  videoFiles ["clip_999.mp4"; "video_1000.mp4"; "video_999.mp4"]
    = videoFiles ["video_999.mp4"; "clip_999.mp4"; "video_1000.mp4"].
Proof.
  assert (["clip_999.mp4"; "video_1000.mp4"; "video_999.mp4"]
            ≡ₚ ["video_999.mp4"; "clip_999.mp4"; "video_1000.mp4"]) as Hperm.
  { apply (Permutation_app_comm [_; _] [_]). }
  split; [exact Hperm|]. exact (proj1 (videoFiles_listing_order _ _ Hperm)).
Defined.

Lemma generated_files_never_sources_witness :
  "clip_999.mp4" = "clip_" +:+ pretty 999%N +:+ ".mp4" ∧
  clip false srv_downloads ServerJs (JNum 10) (JNum 40) 1700000000000
    (<[path_join false srv_downloads "clip_999.mp4" := file 1]> srv_fs)
  = clip false srv_downloads ServerJs (JNum 10) (JNum 40) 1700000000000 srv_fs.
Proof.
  split; [reflexivity|].
  exact (proj2 (proj2 (generated_files_never_sources false srv_downloads ServerJs
                         (JNum 10) (JNum 40) 1700000000000 999 (file 1) srv_fs
                         "clip_999.mp4" (or_introl eq_refl)))).
Defined.


End Files.

(** ** [POST /transcribe] *)

Module Transcribe.

(** [TranscriptionResponse], the type the TypeScript server declares for
    the body: [{ text, words? }].  Nothing checks a body against it. *)
Record TranscriptionResponse := {
  resp_text : jsval;
  resp_words : option (list Captions.TranscriptionWord);
}.

(** How the extraction ends.  [exec] hands the command line to a shell,
    with [startTime], [endTime] (unchecked in [server.js]) and the name
    of the source interpolated into it, so the handler does not
    determine what the command does: an outcome is whether the callback
    gets an error, and the file system the command has left. *)
Inductive exec_outcome :=
| ExecOk (fs1 : gmap (list string) Files.node)
| ExecError (message : string) (fs1 : gmap (list string) Files.node).

(** How the upload ends: the request fails, or the body that arrives is
    not JSON ([reject(new Error(data))]), or it parses, to whatever
    value [JSON.parse] gives. *)
Inductive http_outcome :=
| HttpError (message : string)
| HttpUnparsable (data : string)
| HttpJson (response : jsval).

Definition word_json (w : Captions.CaptionWord) : jsval :=
  JObject [("text", JStr (Captions.cw_text w));
           ("startTime", JNum (Captions.cw_startTime w));
           ("endTime", JNum (Captions.cw_endTime w))].

Definition caption_json (c : Captions.Caption) : jsval :=
  JObject [("text", JStr (Captions.text c));
           ("words", JArr (word_json <$> Captions.words c));
           ("startTime", JNum (Captions.startTime c));
           ("endTime", JNum (Captions.endTime c))].

(** The file system after the command has run. *)
Definition after_exec (ex : exec_outcome) : gmap (list string) Files.node :=
  match ex with
  | ExecOk fs1 => fs1
  | ExecError _ fs1 => fs1
  end.

(** *** Reading a parsed body *)

(** The own property [key] of an object that [JSON.parse] built: of
    several members with one name the last counts. *)
Fixpoint own (fields : list (string * jsval)) (key : string) : option jsval :=
  match fields with
  | [] => None
  | (k, x) :: rest =>
      match own rest key with
      | Some y => Some y
      | None => if String.eqb k key then Some x else None
      end
  end.

(** [v.key] for the keys the handler reads ([words], [text], [word],
    [start], [end]), none of which arrays, strings or the prototypes
    have: a [TypeError] with the message of V8 on [null] and
    [undefined], [undefined] where there is no such own property. *)
Definition get (v : jsval) (key : string) : string + jsval :=
  match v with
  | JNull => inl ("Cannot read properties of null (reading '" +:+ key +:+ "')")
  | JUndefined => inl ("Cannot read properties of undefined (reading '" +:+ key +:+ "')")
  | JObject fields => inr (default JUndefined (own fields key))
  | _ => inr JUndefined
  end.

Section Platform.

Variable isWindows : bool.
Variable DOWNLOAD_DIR : list string.
(** [process.env.GROQ_API_KEY] *)
Variable GROQ_API_KEY : jsval.
(** [Number::toString], the digits JavaScript prints for a number. *)
Variable Number_toString : Q → string.

(** [ToString(v)] as string concatenation applies it to a value that
    [JSON.parse] built; [None] is the [TypeError] of an object with an
    own member [toString], which is not callable. *)
Fixpoint to_string (v : jsval) : option string :=
  match v with
  | JUndefined => Some "undefined"
  | JNull => Some "null"
  | JBool b => Some (if b then "true" else "false")
  | JNum q => Some (Number_toString q)
  | JStr s => Some s
  | JArr items =>
      (* Array.prototype.join: null and undefined print as nothing *)
      (fix join (l : list jsval) : option string :=
         match l with
         | [] => Some EmptyString
         | x :: l' =>
             match match x with
                   | JUndefined | JNull => Some EmptyString
                   | _ => to_string x
                   end with
             | Some s =>
                 match l' with
                 | [] => Some s
                 | _ :: _ =>
                     match join l' with
                     | Some r => Some (s +:+ "," +:+ r)
                     | None => None
                     end
                 end
             | None => None
             end
         end) items
  | JObject fields =>
      match own fields "toString" with
      | Some _ => None
      | None => Some "[object Object]"
      end
  end.

(** [currentCaption] and the loop of the handler on the values of the
    body as they are; [inl] is the message of the [TypeError] thrown. *)
Record gcaption := {
  g_text : string;
  g_words : list jsval;
  g_start : jsval;
  g_end : jsval;
}.

Definition g_fresh : gcaption :=
  {| g_text := EmptyString; g_words := []; g_start := JNum 0; g_end := JNum 0 |}.

Definition g_json (c : gcaption) : jsval :=
  JObject [("text", JStr (g_text c)); ("words", JArr (g_words c));
           ("startTime", g_start c); ("endTime", g_end c)].

Definition g_body (n : nat) (st : list jsval * gcaption) (word : jsval) (i : nat)
    : string + (list jsval * gcaption) :=
  let '(captions, cur) := st in
  match get word "word", get word "start", get word "end" with
  | inr w, inr s, inr e =>
      match to_string w with
      | Some ws =>
          let cur :=
            {| g_words := g_words cur ++ [JObject [("text", w); ("startTime", s);
                                                   ("endTime", e)]];
               g_text := g_text cur
                         +:+ (if negb (String.eqb (g_text cur) EmptyString)
                              then " " else EmptyString)
                         +:+ ws;
               g_start := if Nat.eqb i 0 then s else g_start cur;
               g_end := e |} in
          if (8 <=? length (g_words cur))%nat || (Z.of_nat i =? Z.of_nat n - 1)%Z
          then inr (captions ++ [g_json cur], g_fresh)
          else inr (captions, cur)
      | None => inl "Cannot convert object to primitive value"
      end
  | inl message, _, _ => inl message
  | _, inl message, _ => inl message
  | _, _, inl message => inl message
  end.

Fixpoint g_forEach (n : nat) (ws : list jsval) (i : nat) (st : list jsval * gcaption)
    : string + (list jsval * gcaption) :=
  match ws with
  | [] => inr st
  | w :: ws' =>
      match g_body n st w i with
      | inl message => inl message
      | inr st' => g_forEach n ws' (S i) st'
      end
  end.

(** ["Format captions"]: the captions, or the message of the
    [TypeError] the block throws. *)
Definition format_captions_js (response : jsval) : string + list jsval :=
  match get response "words" with
  | inl message => inl message
  | inr words =>
      if truthy words then
        match words with
        | JArr ws =>
            match g_forEach (length ws) ws 0 ([], g_fresh) with
            | inl message => inl message
            | inr st => inr st.1
            end
        | _ => inl "response.words.forEach is not a function"
        end
      else inr []
  end.

(** The checks before the [try] block, which only the TypeScript
    server has. *)
Definition precheck (v : variant) (startTime endTime : jsval) : option response :=
  match v with
  | ServerJs => None
  | ServerTs =>
      if negb (truthy GROQ_API_KEY)
      then Some (json 500 [("error", JStr "Groq API key not configured")])
      else if negb (is_number startTime) || negb (is_number endTime)
      then Some (json 400 [("error", JStr "startTime and endTime must be numbers")])
      else None
  end.

(** [temp_audio_${Date.now()}.mp3] in the storage directory. *)
Definition audioPath (now : N) : list string :=
  Files.path_join isWindows DOWNLOAD_DIR ("temp_audio_" +:+ pretty now +:+ ".mp3").

(** The handler, given how the command and the upload end: the file
    system it leaves and what it did, in order. *)
Definition transcribe (v : variant) (startTime endTime : jsval) (now : N)
    (fs : gmap (list string) Files.node) (ex : exec_outcome) (ht : http_outcome)
    : gmap (list string) Files.node * list Files.action :=
  match precheck v startTime endTime with
  | Some r => (fs, [Files.Respond r])
  | None =>
      match Files.videoFiles (Files.readdirSync fs DOWNLOAD_DIR) with
      | [] => (fs, [Files.Readdir;
                    Files.Respond (json 404 [("error", JStr "No video file found")])])
      | video :: _ =>
          let videoPath := Files.path_join isWindows DOWNLOAD_DIR video in
          let extractCmd :=
            {| Files.ss := startTime; Files.input := videoPath;
               Files.audio_input := None;
               Files.t_end := endTime; Files.t_start := startTime;
               Files.codecs := Files.Mp3Audio; Files.output := audioPath now |} in
          let fs1 := after_exec ex in
          match ex with
          | ExecError message _ =>
              (* await rejects: catch (error) *)
              (fs1, [Files.Readdir; Files.Exec extractCmd;
                     Files.Respond (json 500 [("error", JStr message)])])
          | ExecOk _ =>
              match ht with
              | HttpError message =>
                  (fs1, [Files.Readdir; Files.Exec extractCmd; Files.HttpPost (audioPath now);
                         Files.Respond (json 500 [("error", JStr message)])])
              | HttpUnparsable data =>
                  (fs1, [Files.Readdir; Files.Exec extractCmd; Files.HttpPost (audioPath now);
                         Files.Respond (json 500 [("error", JStr data)])])
              | HttpJson response =>
                  (* Clean up temp audio *)
                  match Files.unlinkSync fs1 (audioPath now) with
                  | Some fs2 =>
                      (* Format captions; a TypeError goes to the catch *)
                      match format_captions_js response, get response "text" with
                      | inr captions, inr text =>
                          (fs2, [Files.Readdir; Files.Exec extractCmd;
                                 Files.HttpPost (audioPath now); Files.Unlink (audioPath now);
                                 Files.Respond
                                   (json 200 [("success", JBool true);
                                              ("text", text);
                                              ("captions", JArr captions)])])
                      | inl message, _ | _, inl message =>
                          (fs2, [Files.Readdir; Files.Exec extractCmd;
                                 Files.HttpPost (audioPath now); Files.Unlink (audioPath now);
                                 Files.Respond (json 500 [("error", JStr message)])])
                      end
                  | None =>
                      (* unlinkSync throws into the catch: there is no
                         such file *)
                      (fs1, [Files.Readdir; Files.Exec extractCmd;
                             Files.HttpPost (audioPath now);
                             Files.Respond (json 500 [("error", JStr "ENOENT")])])
                  end
              end
          end
      end
  end.

Ltac no_unlink :=
  let H := fresh in
  simpl; intros H; repeat (destruct H as [H|H]; [discriminate H|]); exact H.

(** The last action of a handler is its answer. *)
Definition answer (acts : list Files.action) : option response :=
  match last acts with
  | Some (Files.Respond r) => Some r
  | _ => None
  end.

(** *** Bodies of the declared type *)

Definition word_js (w : Captions.TranscriptionWord) : jsval :=
  JObject [("word", JStr (Captions.word w)); ("start", JNum (Captions.start w));
           ("end", JNum (Captions.end_ w))].

(** A body of type [TranscriptionResponse] as [JSON.parse] gives it. *)
Definition body_json (r : TranscriptionResponse) : jsval :=
  JObject (("text", resp_text r) ::
           match resp_words r with
           | Some ws => [("words", JArr (word_js <$> ws))]
           | None => []
           end).

Definition g_of (c : Captions.Caption) : gcaption :=
  {| g_text := Captions.text c; g_words := word_json <$> Captions.words c;
     g_start := JNum (Captions.startTime c); g_end := JNum (Captions.endTime c) |}.

Lemma g_body_typed (n : nat) (caps : list Captions.Caption) (cur : Captions.Caption)
    (w : Captions.TranscriptionWord) (i : nat) :
  g_body n (caption_json <$> caps, g_of cur) (word_js w) i =
    inr (caption_json <$> (Captions.forEach_body n (caps, cur) w i).1,
         g_of (Captions.forEach_body n (caps, cur) w i).2).
Proof.
  unfold g_body, Captions.forEach_body. cbn [get word_js own String.eqb Ascii.eqb Bool.eqb
    default from_option id g_of g_words g_text g_start g_end fst snd].
  cbn [to_string Captions.words Captions.text]. rewrite !length_app.
  rewrite (length_fmap word_json (Captions.words cur)).
  destruct (_ || _); cbn [fst snd]; f_equal.
  - rewrite fmap_app. do 2 f_equal. unfold g_json, caption_json. cbn.
    rewrite fmap_app. by destruct i.
  - unfold g_of. cbn. rewrite fmap_app. by destruct i.
Qed.

Lemma g_forEach_typed (n : nat) (ws : list Captions.TranscriptionWord) (i : nat)
    (caps : list Captions.Caption) (cur : Captions.Caption) :
  g_forEach n (word_js <$> ws) i (caption_json <$> caps, g_of cur) =
    inr (caption_json <$> (Captions.forEach n ws i (caps, cur)).1,
         g_of (Captions.forEach n ws i (caps, cur)).2).
Proof.
  revert i caps cur. induction ws as [|w ws IH]; intros i caps cur; [done|].
  cbn [fmap list_fmap g_forEach Captions.forEach]. rewrite g_body_typed.
  destruct (Captions.forEach_body n (caps, cur) w i) as [caps' cur']. apply IH.
Qed.

(** On a body of the declared type the block computes the captions of
    [Captions.format_captions], and it does not throw. *)
Lemma format_captions_typed (r : TranscriptionResponse) :
  format_captions_js (body_json r) =
    inr (caption_json <$> Captions.format_captions (resp_words r)).
Proof.
  unfold format_captions_js, body_json, Captions.format_captions.
  destruct (resp_words r) as [ws|]; [|done]. cbn [get own String.eqb Ascii.eqb Bool.eqb
    default from_option id]. cbn [truthy].
  rewrite length_fmap.
  pose proof (g_forEach_typed (length ws) ws 0 [] Captions.fresh_caption) as Hrun.
  change (caption_json <$> [], g_of Captions.fresh_caption) with (@nil jsval, g_fresh) in Hrun.
  by rewrite Hrun.
Qed.

(** C6.  Once the request has passed the checks and a source video is
    there, the handler removes the temporary audio file exactly when the
    extraction, the upload and the parsing of the answer have all
    succeeded: then [unlinkSync] runs before any answer is sent, the
    file is gone, and the answer is 200 with the captions, or 500 when
    formatting the captions throws on a body that is not of the declared
    type.  When the command fails, or the upload fails, or the body is
    not JSON, the handler answers 500 without any [unlinkSync]: the file
    system is left as the command left it, with the audio file on disk
    whenever the command wrote one. *)
Theorem transcribe_cleanup_only_on_success (v : variant) (startTime endTime : jsval)
    (now : N) (fs : gmap (list string) Files.node) (ex : exec_outcome) (ht : http_outcome)
    (video : string) (rest : list string) :
  precheck v startTime endTime = None →
  Files.videoFiles (Files.readdirSync fs DOWNLOAD_DIR) = video :: rest →
  let out := transcribe v startTime endTime now fs ex ht in
  match ex, ht with
  | ExecOk fs1, HttpJson response =>
      match fs1 !! audioPath now with
      | Some (Files.Node false _) =>
          out.1 !! audioPath now = None ∧
          out.1 = delete (audioPath now) fs1 ∧
          ∃ cmd r, out.2 = [Files.Readdir; Files.Exec cmd; Files.HttpPost (audioPath now);
                            Files.Unlink (audioPath now); Files.Respond r] ∧
                   match format_captions_js response with
                   | inr captions =>
                       ∃ text, get response "text" = inr text ∧
                               r = json 200 [("success", JBool true); ("text", text);
                                             ("captions", JArr captions)]
                   | inl message => r = json 500 [("error", JStr message)]
                   end
      | _ =>
          (* the command left no such file: [unlinkSync] throws *)
          out.1 = fs1 ∧ ¬ In (Files.Unlink (audioPath now)) (snd out) ∧
          answer out.2 ≫= (λ r, Some (res_status r)) = Some 500%nat
      end
  | ExecOk fs1, _ | ExecError _ fs1, _ =>
      out.1 = fs1 ∧
      out.1 !! audioPath now = fs1 !! audioPath now ∧
      ¬ In (Files.Unlink (audioPath now)) (snd out) ∧
      answer out.2 ≫= (λ r, Some (res_status r)) = Some 500%nat
  end.
Proof.
  intros Hpre Hvideo. unfold transcribe. rewrite Hpre, Hvideo.
  destruct ex as [fs1|message fs1].
  - destruct ht as [message|data|response]; simpl.
    + repeat split. by no_unlink.
    + repeat split. by no_unlink.
    + unfold Files.unlinkSync.
      destruct (fs1 !! audioPath now) as [[[] size]|] eqn:Hfile; simpl.
      * repeat split. by no_unlink.
      * destruct (format_captions_js response) as [message|captions] eqn:Hfmt.
        -- simpl. rewrite lookup_delete_eq. split; [done|]. split; [done|]. eauto.
        -- assert (∃ text, get response "text" = inr text) as [text ->].
           { unfold format_captions_js in Hfmt.
             destruct response; simpl in *; try done; eauto. }
           simpl. rewrite lookup_delete_eq. split; [done|]. split; [done|].
           eexists _, _. split; [done|]. by exists text.
      * simpl. repeat split. by no_unlink.
  - destruct ht; simpl; repeat split; by no_unlink.
Qed.

(** Apart from what the command that [exec] runs does, the handler
    changes the file system in one way only: when it is left as found,
    no command was started; otherwise it is as the command left it, or
    that with the temporary audio file removed by the one [unlinkSync]
    of the handler. *)
Theorem transcribe_touches_only_temp_audio (v : variant) (startTime endTime : jsval)
    (now : N) (fs : gmap (list string) Files.node) (ex : exec_outcome) (ht : http_outcome) :
  let out := transcribe v startTime endTime now fs ex ht in
  (out.1 = fs ∧ ∀ a, In a out.2 → a = Files.Readdir ∨ ∃ r, a = Files.Respond r) ∨
  ((∃ cmd, In (Files.Exec cmd) out.2) ∧
   ((out.1 = after_exec ex ∧ ¬ In (Files.Unlink (audioPath now)) out.2) ∨
    (out.1 = delete (audioPath now) (after_exec ex) ∧
     In (Files.Unlink (audioPath now)) out.2 ∧
     ∀ p, p ≠ audioPath now → out.1 !! p = after_exec ex !! p))).
Proof.
  cbv zeta. unfold transcribe.
  destruct (precheck _ _ _).
  { left. split; [done|]. simpl. intros a [<-|[]]. eauto. }
  destruct (Files.videoFiles _).
  { left. split; [done|]. simpl. intros a [<-|[<-|[]]]; eauto. }
  right. cbv zeta.
  destruct ex as [fs1|message fs1]; [destruct ht as [message|data|response]|].
  1,2,4: split; [eexists; right; by left|]; left; split; [done|]; by no_unlink.
  cbn [after_exec]. unfold Files.unlinkSync.
  destruct (fs1 !! audioPath now) as [nd|] eqn:Hfile;
    [destruct (Files.is_dir nd)|].
  1,3: split; [eexists; right; by left|]; left; split; [done|]; by no_unlink.
  assert (∀ r, In (Files.Unlink (audioPath now))
                 [Files.Readdir; Files.Exec r; Files.HttpPost (audioPath now);
                  Files.Unlink (audioPath now)]) as Hin by (intros; simpl; auto).
  destruct (format_captions_js response); [|destruct (get response "text")];
    (split; [eexists; right; by left|]); right; simpl; (split; [done|]);
    (split; [auto|]); intros p Hp; by rewrite lookup_delete_ne.
Qed.

Ltac in_actions H :=
  repeat (apply elem_of_cons in H as [H|H]; [first [discriminate H | by injection H] |]);
  by apply elem_of_nil in H.

(** The TypeScript server starts ffmpeg for a transcription only with an
    API key configured, two numbers as times and a source video in the
    storage directory; the command then reads the latest source and
    writes the temporary audio file. *)
Theorem transcribe_ts_runs_after_checks (startTime endTime : jsval) (now : N)
    (fs : gmap (list string) Files.node) (ex : exec_outcome) (ht : http_outcome)
    (cmd : Files.ffmpeg) :
  Files.Exec cmd ∈ (transcribe ServerTs startTime endTime now fs ex ht).2 →
  truthy GROQ_API_KEY = true ∧ is_number startTime = true ∧ is_number endTime = true ∧
  (∃ video, head (Files.videoFiles (Files.readdirSync fs DOWNLOAD_DIR)) = Some video ∧
            Files.input cmd = Files.path_join isWindows DOWNLOAD_DIR video) ∧
  Files.output cmd = audioPath now ∧
  Files.ss cmd = startTime ∧ Files.t_start cmd = startTime ∧ Files.t_end cmd = endTime.
Proof.
  unfold transcribe, precheck.
  destruct (truthy GROQ_API_KEY); simpl; [|by intros ?%list_elem_of_singleton].
  destruct (is_number startTime); simpl; [|by intros ?%list_elem_of_singleton].
  destruct (is_number endTime); simpl; [|by intros ?%list_elem_of_singleton].
  destruct (Files.videoFiles _) as [|video rest]; intros Hin; [by in_actions Hin|].
  assert (cmd = {| Files.ss := startTime;
                   Files.input := Files.path_join isWindows DOWNLOAD_DIR video;
                   Files.audio_input := None;
                   Files.t_end := endTime; Files.t_start := startTime;
                   Files.codecs := Files.Mp3Audio; Files.output := audioPath now |}) as ->.
  { destruct ex as [n|message partial]; [destruct ht as [message|data|response]|];
      try (by in_actions Hin).
    destruct (Files.unlinkSync _ _); [|by in_actions Hin].
    destruct (format_captions_js response); [|destruct (get response "text")];
      by in_actions Hin. }
  simpl. eauto 10.
Qed.

End Platform.

(** [Number::toString] on whole numbers, all that the examples print. *)
Definition print_whole (q : Q) : string := pretty (Qnum q `div` Z.pos (Qden q))%Z.

(** The example directory after ffmpeg has written 48000 bytes of audio. *)
Definition srv_fs_audio : gmap (list string) Files.node :=
  <[audioPath false Files.srv_downloads 1700000000000 := Files.file 48000]> Files.srv_fs.

(** The theorem on the example directory: ffmpeg writes the audio file
    and the service answers with a text and no words. *)
Lemma transcribe_cleanup_only_on_success_witness :
  let dir := Files.srv_downloads in
  let key := JStr "gsk_key" in
  let response := body_json {| resp_text := JStr "hi there"; resp_words := None |} in
  let out := transcribe false dir key print_whole ServerTs (JNum 10) (JNum 40) 1700000000000
               Files.srv_fs (ExecOk srv_fs_audio) (HttpJson response) in
  precheck key ServerTs (JNum 10) (JNum 40) = None ∧
  Files.videoFiles (Files.readdirSync Files.srv_fs dir) = ["video_1000.mp4"] ∧
  out.1 !! audioPath false dir 1700000000000 = None ∧
  out.1 = delete (audioPath false dir 1700000000000) srv_fs_audio ∧
  (∃ cmd r, out.2 = [Files.Readdir; Files.Exec cmd;
                     Files.HttpPost (audioPath false dir 1700000000000);
                     Files.Unlink (audioPath false dir 1700000000000); Files.Respond r] ∧
            r = json 200 [("success", JBool true); ("text", JStr "hi there");
                          ("captions", JArr [])]).
Proof.
  cbv zeta.
  assert (Files.videoFiles (Files.readdirSync Files.srv_fs Files.srv_downloads)
          = ["video_1000.mp4"]) as Hvideo by (by vm_compute).
  split; [reflexivity|]. split; [exact Hvideo|].
  pose proof (transcribe_cleanup_only_on_success false Files.srv_downloads (JStr "gsk_key")
                print_whole ServerTs (JNum 10) (JNum 40) 1700000000000 Files.srv_fs
                (ExecOk srv_fs_audio)
                (HttpJson (body_json {| resp_text := JStr "hi there"; resp_words := None |}))
                "video_1000.mp4" [] eq_refl Hvideo) as H.
  cbv beta iota zeta in H. unfold srv_fs_audio at 1 in H.
  rewrite lookup_insert_eq in H. unfold Files.file in H. cbv beta iota in H.
  destruct H as (Hgone & Hfs & cmd & r & Hacts & Hr).
  split; [exact Hgone|]. split; [exact Hfs|]. exists cmd, r. split; [exact Hacts|].
  destruct Hr as (text & Htext & Hr). rewrite Hr. by injection Htext as <-.
Defined.

Lemma transcribe_ts_runs_after_checks_witness :
  let cmd := {| Files.ss := JNum 10;
                Files.input := ["srv"; "downloads"; "video_1000.mp4"];
                Files.audio_input := None;
                Files.t_end := JNum 40; Files.t_start := JNum 10;
                Files.codecs := Files.Mp3Audio;
                Files.output := audioPath false Files.srv_downloads 1700000000000 |} in
  Files.Exec cmd ∈
    (transcribe false Files.srv_downloads (JStr "gsk_key") print_whole ServerTs
       (JNum 10) (JNum 40) 1700000000000 Files.srv_fs (ExecOk srv_fs_audio)
       (HttpError "timeout")).2 ∧
  truthy (JStr "gsk_key") = true ∧
  Files.output cmd = audioPath false Files.srv_downloads 1700000000000.
Proof.
  cbv zeta.
  assert (Files.Exec {| Files.ss := JNum 10;
                        Files.input := ["srv"; "downloads"; "video_1000.mp4"];
                        Files.audio_input := None;
                        Files.t_end := JNum 40; Files.t_start := JNum 10;
                        Files.codecs := Files.Mp3Audio;
                        Files.output := audioPath false Files.srv_downloads 1700000000000 |}
          ∈ (transcribe false Files.srv_downloads (JStr "gsk_key") print_whole ServerTs
               (JNum 10) (JNum 40) 1700000000000 Files.srv_fs (ExecOk srv_fs_audio)
               (HttpError "timeout")).2) as Hin.
  { assert (Files.videoFiles (Files.readdirSync Files.srv_fs Files.srv_downloads)
            = ["video_1000.mp4"]) as Hv by (by vm_compute).
    unfold transcribe. rewrite Hv. simpl. apply elem_of_cons. right. by left. }
  split; [exact Hin|].
  pose proof (transcribe_ts_runs_after_checks false Files.srv_downloads (JStr "gsk_key")
                print_whole (JNum 10) (JNum 40) 1700000000000 Files.srv_fs
                (ExecOk srv_fs_audio) (HttpError "timeout") _ Hin)
    as (Hkey & _ & _ & _ & Hout & _).
  split; [exact Hkey|exact Hout].
Defined.

End Transcribe.

(** ** The download queue: [/queue/add], [/queue/status], [/queue/:id],
    [processQueue], [downloadVideo] and the legacy [/download] *)

Module Queue.

Inductive item_status := Squeued | Sdownloading | Scomplete | Serror.

Global Instance item_status_eq_dec : EqDecision item_status.
Proof. solve_decision. Defined.

(** [DownloadQueueItem].  [url] and [title] hold whatever the request
    body held; [addedAt] is missing on the items [server.js] builds in
    [POST /download]. *)
Record DownloadQueueItem := {
  id : string;
  url : jsval;
  title : jsval;
  status : item_status;
  progress : Q;
  addedAt : option string;
  filename : option string;
  error : option string;
}.

Definition with_url (u : jsval) (it : DownloadQueueItem) : DownloadQueueItem :=
  {| id := id it; url := u; title := title it; status := status it;
     progress := progress it; addedAt := addedAt it; filename := filename it;
     error := error it |}.

Definition with_status (st : item_status) (it : DownloadQueueItem) : DownloadQueueItem :=
  {| id := id it; url := url it; title := title it; status := st;
     progress := progress it; addedAt := addedAt it; filename := filename it;
     error := error it |}.

Definition with_progress (p : Q) (it : DownloadQueueItem) : DownloadQueueItem :=
  {| id := id it; url := url it; title := title it; status := status it;
     progress := p; addedAt := addedAt it; filename := filename it;
     error := error it |}.

Definition with_filename (f : string) (it : DownloadQueueItem) : DownloadQueueItem :=
  {| id := id it; url := url it; title := title it; status := status it;
     progress := progress it; addedAt := addedAt it; filename := Some f;
     error := error it |}.

Definition with_error (m : string) (it : DownloadQueueItem) : DownloadQueueItem :=
  {| id := id it; url := url it; title := title it; status := status it;
     progress := progress it; addedAt := addedAt it; filename := filename it;
     error := Some m |}.

(** The module state and the suspended activations.  [heap] holds every
    item object ever built; the other fields refer to items by index.
    [drains] lists the activations of [processQueue] suspended at
    [await downloadVideo(item)], each by its local [item]; [legacy] lists
    the [POST /download] requests whose [downloadVideo(item)] is
    pending. *)
Record server := {
  heap : list DownloadQueueItem;
  downloadQueue : list nat;
  currentDownload : option nat;
  isProcessing : bool;
  drains : list nat;
  legacy : list nat;
}.

Definition set_heap (h : list DownloadQueueItem) (s : server) : server :=
  {| heap := h; downloadQueue := downloadQueue s; currentDownload := currentDownload s;
     isProcessing := isProcessing s; drains := drains s; legacy := legacy s |}.

Definition set_queue (q : list nat) (s : server) : server :=
  {| heap := heap s; downloadQueue := q; currentDownload := currentDownload s;
     isProcessing := isProcessing s; drains := drains s; legacy := legacy s |}.

Definition set_current (c : option nat) (s : server) : server :=
  {| heap := heap s; downloadQueue := downloadQueue s; currentDownload := c;
     isProcessing := isProcessing s; drains := drains s; legacy := legacy s |}.

Definition set_processing (b : bool) (s : server) : server :=
  {| heap := heap s; downloadQueue := downloadQueue s; currentDownload := currentDownload s;
     isProcessing := b; drains := drains s; legacy := legacy s |}.

Definition set_drains (l : list nat) (s : server) : server :=
  {| heap := heap s; downloadQueue := downloadQueue s; currentDownload := currentDownload s;
     isProcessing := isProcessing s; drains := l; legacy := legacy s |}.

Definition set_legacy (l : list nat) (s : server) : server :=
  {| heap := heap s; downloadQueue := downloadQueue s; currentDownload := currentDownload s;
     isProcessing := isProcessing s; drains := drains s; legacy := l |}.

(** The server as it starts. *)
Definition init : server :=
  {| heap := []; downloadQueue := []; currentDownload := None;
     isProcessing := false; drains := []; legacy := [] |}.

(** What a turn does to the outside. *)
Inductive action :=
| Spawn (r : nat) (outputFile : string) (url : jsval)
| Respond (res : response).

(** What reading the size of the result file gives in the [then] of
    [POST /download]: a size, or an exception with its message. *)
Inductive stat_result :=
| StatSize (n : N)
| StatThrows (message : string).

(** The turns of the event loop.  [now] is [Date.now()], [iso] is
    [new Date().toISOString()].  A child process is named by the item it
    downloads; it lives from its spawn to its [close] or [error], and an
    event of a process that is not running changes nothing. *)
Inductive event :=
| QueueAdd (url title : jsval) (now : N) (iso : string)
| QueueStatus
| QueueCancel (id : string)
| Download (url : jsval) (now : N) (iso : string)
| Status
| Stdout (r : nat) (line : string)
| Close (r : nat) (code : option Z) (stat : stat_result)
| SpawnError (r : nat) (message : string).

(** *** Progress lines: [line.match] on digits, an optional dot, more
    digits and a percent sign, and [parseFloat] of the number matched *)

Fixpoint digits (s : string) : list nat * string :=
  match s with
  | String c s' =>
      match Ascii.is_nat c with
      | Some d => let '(ds, r) := digits s' in (d :: ds, r)
      | None => ([], s)
      end
  | EmptyString => ([], EmptyString)
  end.

(** The pattern anchored at the head of [s]: the digits before and after
    the optional dot. *)
Definition match_here (s : string) : option (list nat * list nat) :=
  match digits s with
  | ([], _) => None
  | (whole, String c r) =>
      if Ascii.eqb c "%"%char then Some (whole, [])
      else if Ascii.eqb c "."%char then
        match digits r with
        | (frac, String c' _) => if Ascii.eqb c' "%"%char then Some (whole, frac) else None
        | _ => None
        end
      else None
  | _ => None
  end.

(** The leftmost match in [s]. *)
Fixpoint match_progress (s : string) : option (list nat * list nat) :=
  match match_here s with
  | Some m => Some m
  | None =>
      match s with
      | String _ s' => match_progress s'
      | EmptyString => None
      end
  end.

Definition decimal (ds : list nat) : Z :=
  foldl (λ acc d, 10 * acc + Z.of_nat d)%Z 0%Z ds.

(** The number the matched text denotes, as the exact decimal.
    [parseFloat] gives the double nearest to it ([Infinity] beyond the
    doubles), which is the number itself when it is whole and below
    2^53. *)
Definition parseFloat (m : list nat * list nat) : Q :=
  (inject_Z (decimal (m.1 ++ m.2)) / inject_Z (10 ^ Z.of_nat (length m.2)))%Q.

(** [`${code}`] for the exit code of [close]: [null] when a signal ended
    the process. *)
Definition show_code (code : option Z) : string :=
  match code with
  | Some n => pretty n
  | None => "null"
  end.

Definition item_json (it : DownloadQueueItem) : jsval :=
  JObject ([("id", JStr (id it)); ("url", url it); ("title", title it);
            ("status", JStr match status it with
                            | Squeued => "queued" | Sdownloading => "downloading"
                            | Scomplete => "complete" | Serror => "error"
                            end);
            ("progress", JNum (progress it))]
           ++ match addedAt it with Some a => [("addedAt", JStr a)] | None => [] end
           ++ match filename it with Some f => [("filename", JStr f)] | None => [] end
           ++ match error it with Some m => [("error", JStr m)] | None => [] end).

Section Platform.

(** Whether [new URL(u)] returns (or throws), and the port. *)
Variable URL_parses : string → bool.
Variable PORT : N.

(** [video_${item.id}.mp4] and its download URL. *)
Definition video_name (it : DownloadQueueItem) : string :=
  "video_" +:+ id it +:+ ".mp4".

Definition download_url (name : string) : string :=
  "http://localhost:" +:+ pretty PORT +:+ "/downloads/" +:+ name.

(** The handlers that [downloadVideo] installs on the child process. *)
Definition on_stdout (line : string) (it : DownloadQueueItem) : DownloadQueueItem :=
  let it :=
    match match_progress line with
    | Some m => with_progress (parseFloat m) it
    | None => it
    end in
  if Str.includes line "Destination:" || Str.includes line "Merging"
  then with_filename (video_name it) it
  else it.

(** [close]: what it does to the item, and whether the promise is
    rejected ([Some message]) or resolved ([None]). *)
Definition on_close (code : option Z) (it : DownloadQueueItem) : DownloadQueueItem :=
  match code with
  | Some 0%Z =>
      with_url (JStr (download_url (video_name it))) (with_filename (video_name it) it)
  | _ => it
  end.

Definition close_outcome (code : option Z) : option string :=
  match code with
  | Some 0%Z => None
  | _ => Some ("Download failed with code " +:+ show_code code)
  end.

(** [downloadVideo(item)]: spawns yt-dlp for the item. *)
Definition downloadVideo (s : server) (r : nat) : list action :=
  match heap s !! r with
  | Some it => [Spawn r (video_name it) (url it)]
  | None => []
  end.

(** [processQueue] from the test of its [while] to the next [await],
    or to its end. *)
Definition drain (s : server) : server * list action :=
  match downloadQueue s with
  | [] => (set_processing false (set_current None s), [])
  | r :: _ =>
      let s := set_current (Some r) s in
      let s := set_heap (alter (with_status Sdownloading) r (heap s)) s in
      (set_drains (r :: drains s) s, downloadVideo s r)
  end.

Definition processQueue (s : server) : server * list action :=
  if isProcessing s || (length (downloadQueue s) =? 0)%nat then (s, [])
  else drain (set_processing true s).

(** [processQueue] resumed after [await downloadVideo(item)] for the
    item [r]: the rest of the [try] or the [catch], then
    [downloadQueue.shift()], then the loop again. *)
Definition resume (r : nat) (outcome : option string) (s : server) : server * list action :=
  let s :=
    match outcome with
    | None => set_heap (alter (λ it, with_progress 100 (with_status Scomplete it)) r (heap s)) s
    | Some message =>
        set_heap (alter (λ it, with_error message (with_status Serror it)) r (heap s)) s
    end in
  drain (set_queue (tail (downloadQueue s)) s).

(** The [then] and the [catch] of [POST /download] for the item [r];
    [stat] is what [fs.statSync(path.join(DOWNLOAD_DIR, item.filename)).size]
    gives. *)
Definition download_done (r : nat) (outcome : option string) (stat : stat_result)
    (s : server) : server * list action :=
  let s := set_current None s in
  match outcome with
  | None =>
      match stat with
      | StatSize n =>
          let name := default EmptyString (it ← heap s !! r; filename it) in
          (s, [Respond (json 200
                 [("success", JBool true); ("filename", JStr name);
                  ("url", JStr (download_url name)); ("size", num_of_N n)])])
      | StatThrows message => (s, [Respond (json 500 [("error", JStr message)])])
      end
  | Some message => (s, [Respond (json 500 [("error", JStr message)])])
  end.

(** The promise of [downloadVideo(item)] for the item [r] is settled:
    whoever awaits it goes on. *)
Definition settle (r : nat) (outcome : option string) (stat : stat_result)
    (s : server) : server * list action :=
  if decide (r ∈ drains s) then
    resume r outcome (set_drains (filter (λ x, x ≠ r) (drains s)) s)
  else if decide (r ∈ legacy s) then
    download_done r outcome stat (set_legacy (filter (λ x, x ≠ r) (legacy s)) s)
  else (s, []).

(** The check of the url at the head of [POST /queue/add] and of
    [POST /download]. *)
Definition validate_url (v : variant) (url : jsval) : option response :=
  match v with
  | ServerJs =>
      if negb (truthy url) then Some (json 400 [("error", JStr "URL is required")])
      else None
  | ServerTs =>
      if negb (truthy url) || negb (is_string url)
      then Some (json 400 [("error", JStr "URL is required and must be a string")])
      else match url with
           | JStr u =>
               if URL_parses u then None
               else Some (json 400 [("error", JStr "Invalid URL format")])
           | _ => None
           end
  end.

(** [POST /queue/add] *)
Definition queue_add (v : variant) (url title : jsval) (now : N) (iso : string)
    (s : server) : server * list action :=
  match validate_url v url with
  | Some r => (s, [Respond r])
  | None =>
      let id := pretty now in
      let item :=
        {| id := id; url := url;
           title := if truthy title then title else JStr "Video";
           status := Squeued; progress := 0; addedAt := Some iso;
           filename := None; error := None |} in
      let r := length (heap s) in
      let s := set_queue (downloadQueue s ++ [r]) (set_heap (heap s ++ [item]) s) in
      let '(s, acts) := if negb (isProcessing s) then processQueue s else (s, []) in
      (s, acts ++ [Respond (json 200 [("success", JBool true); ("id", JStr id);
                                      ("queuePosition", num_of_nat (length (downloadQueue s)))])])
  end.

(** The items the indices of [l] name. *)
Definition items (s : server) (l : list nat) : list DownloadQueueItem :=
  omap (λ r, heap s !! r) l.


Definition current_json (s : server) : jsval :=
  match currentDownload s ≫= (λ r, heap s !! r) with
  | Some it => item_json it
  | None => JNull
  end.

(** [GET /queue/status] *)
Definition queue_status (s : server) : response :=
  json 200 [("currentDownload", current_json s);
            ("queue", JArr (item_json <$> items s (downloadQueue s)));
            ("isProcessing", JBool (isProcessing s))].

(** [GET /status] *)
Definition get_status (s : server) : response :=
  json 200 [("status", JStr "running");
            ("currentDownload", current_json s);
            ("queueLength", num_of_nat (length (downloadQueue s)))].

(** [downloadQueue.findIndex(d => d.id === id)] *)
Fixpoint findIndex (s : server) (i : string) (l : list nat) : option nat :=
  match l with
  | [] => None
  | r :: l' =>
      if bool_decide (id <$> heap s !! r = Some i) then Some 0%nat
      else S <$> findIndex s i l'
  end.

(** [DELETE /queue/:id] *)
Definition queue_cancel (i : string) (s : server) : server * list action :=
  match findIndex s i (downloadQueue s) with
  | Some index =>
      (set_queue (delete index (downloadQueue s)) s,
       [Respond (json 200 [("success", JBool true)])])
  | None => (s, [Respond (json 404 [("error", JStr "Download not found")])])
  end.

(** [POST /download] up to the call of [downloadVideo]. *)
Definition download (v : variant) (url : jsval) (now : N) (iso : string)
    (s : server) : server * list action :=
  match validate_url v url with
  | Some r => (s, [Respond r])
  | None =>
      let item :=
        {| id := pretty now; url := url; title := JStr "Video";
           status := Sdownloading; progress := 0;
           addedAt := match v with ServerTs => Some iso | ServerJs => None end;
           filename := None; error := None |} in
      let r := length (heap s) in
      let s := set_current (Some r) (set_heap (heap s ++ [item]) s) in
      (set_legacy (r :: legacy s) s, downloadVideo s r)
  end.

(** One turn. *)
Definition step (v : variant) (s : server) (e : event) : server * list action :=
  match e with
  | QueueAdd url title now iso => queue_add v url title now iso s
  | QueueStatus => (s, [Respond (queue_status s)])
  | QueueCancel i => queue_cancel i s
  | Download url now iso => download v url now iso s
  | Status => (s, [Respond (get_status s)])
  | Stdout r line =>
      if decide (r ∈ drains s ∨ r ∈ legacy s)
      then (set_heap (alter (on_stdout line) r (heap s)) s, [])
      else (s, [])
  | Close r code stat =>
      if decide (r ∈ drains s ∨ r ∈ legacy s)
      then settle r (close_outcome code) stat
             (set_heap (alter (on_close code) r (heap s)) s)
      else (s, [])
  | SpawnError r message =>
      settle r (Some message) (StatThrows message) s
  end.

(** The turns [evs] from [s] on: the state reached and everything done
    on the way. *)
Fixpoint run (v : variant) (s : server) (evs : list event) : server * list action :=
  match evs with
  | [] => (s, [])
  | e :: evs' =>
      let '(s1, a1) := step v s e in
      let '(s2, a2) := run v s1 evs' in
      (s2, a1 ++ a2)
  end.

(** The items of the actions that spawn a download, in order. *)
Definition spawned (acts : list action) : list nat :=
  omap (λ a, match a with Spawn r _ _ => Some r | Respond _ => None end) acts.


(** *** Well-formed states *)

(** What every reachable state satisfies, whatever the requests. *)
Record wf (s : server) : Prop := {
  wf_queue_bound : ∀ r, r ∈ downloadQueue s → r < length (heap s);
  wf_drains_bound : ∀ r, r ∈ drains s → r < length (heap s);
  wf_legacy_bound : ∀ r, r ∈ legacy s → r < length (heap s);
  wf_queue_nodup : NoDup (downloadQueue s);
  wf_drains :
    drains s = [] ∨
    ∃ r, drains s = [r] ∧ (r ∉ downloadQueue s ∨ head (downloadQueue s) = Some r);
  wf_processing : isProcessing s = bool_decide (drains s ≠ []);
  wf_status :
    ∀ r it, r ∈ downloadQueue s → heap s !! r = Some it →
      status it = if bool_decide (r ∈ drains s) then Sdownloading else Squeued;
  wf_current : ∀ r, currentDownload s = Some r → r ∈ drains s ∨ r ∈ legacy s;
  wf_legacy_queue : ∀ r, r ∈ legacy s → (r ∉ downloadQueue s) ∧ (r ∉ drains s);
  wf_complete :
    ∀ r it, heap s !! r = Some it → status it = Scomplete →
      url it = JStr (download_url (video_name it)) ∧ filename it = Some (video_name it);
}.

(** The state between two iterations of the loop of [processQueue]: no
    activation is suspended and every queued item waits. *)
Record calm (s : server) : Prop := {
  calm_queue_bound : ∀ r, r ∈ downloadQueue s → r < length (heap s);
  calm_legacy_bound : ∀ r, r ∈ legacy s → r < length (heap s);
  calm_queue_nodup : NoDup (downloadQueue s);
  calm_drains : drains s = [];
  calm_processing : isProcessing s = true;
  calm_status :
    ∀ r it, r ∈ downloadQueue s → heap s !! r = Some it → status it = Squeued;
  calm_legacy_queue : ∀ r, r ∈ legacy s → r ∉ downloadQueue s;
  calm_complete :
    ∀ r it, heap s !! r = Some it → status it = Scomplete →
      url it = JStr (download_url (video_name it)) ∧ filename it = Some (video_name it);
}.

Lemma lookup_alter_Some {A} (f : A → A) (l : list A) (i j : nat) (y : A) :
  alter f i l !! j = Some y →
  (i = j ∧ ∃ x, l !! i = Some x ∧ y = f x) ∨ (i ≠ j ∧ l !! j = Some y).
Proof.
  rewrite list_lookup_alter. case_decide as Hij; [|by right].
  intros Hy. left. split; [done|].
  destruct (l !! i) as [x|]; simplify_eq/=. eauto.
Qed.

Lemma wf_init : wf init.
Proof.
  split; simpl; try done; try (intros r Hr; by apply not_elem_of_nil in Hr).
  - constructor.
  - by left.
Qed.

Lemma drain_wf (s : server) : calm s → wf (drain s).1.
Proof.
  intros [Hqb Hlb Hnd Hdr Hproc Hst Hlq Hc]. unfold drain.
  destruct (downloadQueue s) as [|r q] eqn:Hq; simpl.
  - split; simpl; rewrite ?Hq, ?Hdr; try done;
      try (intros r Hr; by apply not_elem_of_nil in Hr).
    + by left.
    + intros r Hr. split; apply not_elem_of_nil.
  - split; simpl; rewrite ?Hq, ?Hdr, ?length_alter; try done.
    + intros r' ->%list_elem_of_singleton. apply Hqb. left.
    + right. exists r. split; [done|]. by right.
    + intros r' it' Hr' Hit'.
      apply lookup_alter_Some in Hit' as [[<- (it & Hit & ->)]|[Hne Hit']]; simpl.
      * rewrite bool_decide_eq_true_2; [done|]. left.
      * rewrite bool_decide_eq_false_2; [by eapply Hst|].
        rewrite list_elem_of_singleton. congruence.
    + intros r' [= <-]. left. left.
    + intros r' Hr'. split; [by apply Hlq|].
      rewrite list_elem_of_singleton. intros ->. apply (Hlq r Hr'). left.
    + intros r' it' Hit' Hcomplete.
      apply lookup_alter_Some in Hit' as [[<- (it & Hit & ->)]|[Hne Hit']]; [done|].
      by eapply Hc.
Qed.

(** Functions on items that leave the status alone and keep a completed
    item's url and filename in place. *)
Definition harmless (f : DownloadQueueItem → DownloadQueueItem) : Prop :=
  ∀ it,
    status (f it) = status it ∧
    ((status it = Scomplete →
      url it = JStr (download_url (video_name it)) ∧ filename it = Some (video_name it)) →
     status (f it) = Scomplete →
     url (f it) = JStr (download_url (video_name (f it))) ∧
     filename (f it) = Some (video_name (f it))).

Lemma on_stdout_harmless (line : string) : harmless (on_stdout line).
Proof.
  intros it. unfold on_stdout.
  destruct (match_progress line), (_ || _); simpl; split; auto.
  - intros H Hc. destruct (H Hc) as [-> _]. done.
  - intros H Hc. destruct (H Hc) as [-> _]. done.
Qed.

Lemma on_close_harmless (code : option Z) : harmless (on_close code).
Proof.
  intros it. unfold on_close. destruct code as [[| |]|]; simpl; split; auto.
Qed.

Lemma alter_wf (f : DownloadQueueItem → DownloadQueueItem) (r : nat) (s : server) :
  harmless f → wf s → wf (set_heap (alter f r (heap s)) s).
Proof.
  intros Hf [Hqb Hdb Hlb Hnd Hdr Hproc Hst Hcur Hlq Hc].
  split; simpl; rewrite ?length_alter; try done.
  - intros r' it' Hr' Hit'.
    apply lookup_alter_Some in Hit' as [[<- (it & Hit & ->)]|[Hne Hit']]; [|by eapply Hst].
    destruct (Hf it) as [-> _]. by eapply Hst.
  - intros r' it' Hit'.
    apply lookup_alter_Some in Hit' as [[<- (it & Hit & ->)]|[Hne Hit']]; [|by eapply Hc].
    apply Hf. by eapply Hc.
Qed.

Lemma elem_of_tail {A} (x : A) (l : list A) : x ∈ tail l → x ∈ l.
Proof. destruct l; simpl; [done|]. by right. Qed.

Lemma NoDup_tail {A} (l : list A) : NoDup l → NoDup (tail l).
Proof. destruct l; simpl; [done|]. by intros [_ ?]%NoDup_cons. Qed.

(** The item an activation awaits is not among the items behind the head. *)
Lemma awaited_not_in_tail (s : server) (r : nat) :
  wf s → r ∈ drains s → r ∉ tail (downloadQueue s).
Proof.
  intros Hwf Hr. destruct (wf_drains s Hwf) as [Hd|(r0 & Hd & Hwhere)]; rewrite Hd in Hr.
  - by apply not_elem_of_nil in Hr.
  - apply list_elem_of_singleton in Hr as ->.
    destruct Hwhere as [Hout|Hhead].
    + intros Hin. by apply Hout, elem_of_tail.
    + apply head_Some in Hhead as [q Hq]. pose proof (wf_queue_nodup s Hwf) as Hnd.
      rewrite Hq in Hnd |- *. simpl. by apply NoDup_cons in Hnd as [? _].
Qed.

Lemma resume_wf (r : nat) (outcome : option string) (s : server) :
  wf s → r ∈ drains s →
  (outcome = None → ∀ it, heap s !! r = Some it →
     url it = JStr (download_url (video_name it)) ∧ filename it = Some (video_name it)) →
  wf (resume r outcome (set_drains (filter (λ x, x ≠ r) (drains s)) s)).1.
Proof.
  intros Hwf Hr Hurl. unfold resume. apply drain_wf.
  pose proof (awaited_not_in_tail s r Hwf Hr) as Hnotin.
  destruct Hwf as [Hqb Hdb Hlb Hnd Hdr Hproc Hst Hcur Hlq Hc].
  assert (drains s = [r]) as Hd.
  { destruct Hdr as [Hd|(r0 & Hd & _)]; rewrite Hd in Hr.
    - by apply not_elem_of_nil in Hr.
    - by apply list_elem_of_singleton in Hr as ->. }
  assert (filter (λ x, x ≠ r) (drains s) = []) as Hfilter.
  { rewrite Hd. rewrite filter_cons_False by (intros H; by apply H). done. }
  assert (isProcessing s = true) as Hp.
  { rewrite Hproc, Hd. by apply bool_decide_eq_true_2. }
  destruct outcome as [message|]; simpl; rewrite Hfilter.
  - split; simpl; rewrite ?length_alter; try done.
    + intros r' Hr'. by apply Hqb, elem_of_tail.
    + by apply NoDup_tail.
    + intros r' it' Hr' Hit'.
      apply lookup_alter_Some in Hit' as [[<- _]|[Hne Hit']]; [done|].
      rewrite (Hst r' it') by eauto using elem_of_tail.
      rewrite bool_decide_eq_false_2; [done|]. rewrite Hd, list_elem_of_singleton. congruence.
    + intros r' Hr' Hin. destruct (Hlq r' Hr') as [Hout _]. by apply Hout, elem_of_tail.
    + intros r' it' Hit'.
      apply lookup_alter_Some in Hit' as [[<- (it & Hit & ->)]|[Hne Hit']]; [done|].
      by eapply Hc.
  - split; simpl; rewrite ?length_alter; try done.
    + intros r' Hr'. by apply Hqb, elem_of_tail.
    + by apply NoDup_tail.
    + intros r' it' Hr' Hit'.
      apply lookup_alter_Some in Hit' as [[<- _]|[Hne Hit']]; [done|].
      rewrite (Hst r' it') by eauto using elem_of_tail.
      rewrite bool_decide_eq_false_2; [done|]. rewrite Hd, list_elem_of_singleton. congruence.
    + intros r' Hr' Hin. destruct (Hlq r' Hr') as [Hout _]. by apply Hout, elem_of_tail.
    + intros r' it' Hit'.
      apply lookup_alter_Some in Hit' as [[<- (it & Hit & ->)]|[Hne Hit']]; [|by eapply Hc].
      intros _. destruct (Hurl eq_refl it Hit) as [Hu Hf]. by unfold video_name in *.
Qed.

Lemma lookup_push {A} (l : list A) (x y : A) (i : nat) :
  (l ++ [x]) !! i = Some y →
  (i < length l ∧ l !! i = Some y) ∨ (i = length l ∧ y = x).
Proof.
  intros [Hl|[Hlen Hx]]%lookup_app_Some.
  - left. split; [by eapply lookup_lt_Some|done].
  - right. apply list_lookup_singleton_Some in Hx as [Hi <-]. split; [lia|done].
Qed.

Lemma settle_wf (r : nat) (outcome : option string) (stat : stat_result) (s : server) :
  wf s →
  (outcome = None → ∀ it, heap s !! r = Some it →
     url it = JStr (download_url (video_name it)) ∧ filename it = Some (video_name it)) →
  wf (settle r outcome stat s).1.
Proof.
  intros Hwf Hurl. unfold settle.
  destruct (decide (r ∈ drains s)) as [Hr|Hr]; [by apply resume_wf|].
  destruct (decide (r ∈ legacy s)) as [Hl|Hl]; [|done].
  destruct Hwf as [Hqb Hdb Hlb Hnd Hdr Hproc Hst Hcur Hlq Hc].
  assert (wf (set_current None (set_legacy (filter (λ x, x ≠ r) (legacy s)) s))) as Hwf.
  { split; simpl; try done.
    - intros r' [_ Hr']%list_elem_of_filter. by apply Hlb.
    - intros r' [_ Hr']%list_elem_of_filter. by apply Hlq. }
  unfold download_done. by destruct outcome, stat.
Qed.

Lemma elem_of_push {A} (x y : A) (l : list A) : x ∈ l ++ [y] ↔ x ∈ l ∨ x = y.
Proof. by rewrite elem_of_app, list_elem_of_singleton. Qed.

Lemma idle_no_drains (s : server) : wf s → isProcessing s = false → drains s = [].
Proof.
  intros Hwf Hp. pose proof (wf_processing s Hwf) as Hproc.
  rewrite Hp in Hproc. symmetry in Hproc. apply bool_decide_eq_false in Hproc.
  destruct (drains s); [done|]. by destruct Hproc.
Qed.

(** The state right after [downloadQueue.push(item)]. *)
Definition pushed (item : DownloadQueueItem) (s : server) : server :=
  set_queue (downloadQueue s ++ [length (heap s)]) (set_heap (heap s ++ [item]) s).

Lemma pushed_wf (item : DownloadQueueItem) (s : server) :
  status item = Squeued → wf s → wf (pushed item s).
Proof.
  intros Hitem [Hqb Hdb Hlb Hnd Hdr Hproc Hst Hcur Hlq Hc].
  split; simpl; rewrite ?length_app; simpl; try done.
  - intros r [Hr| ->]%elem_of_push; [apply Hqb in Hr|]; lia.
  - intros r Hr%Hdb. lia.
  - intros r Hr%Hlb. lia.
  - apply NoDup_app. split; [done|]. split; [|apply NoDup_singleton].
    intros r Hr%Hqb Hs%list_elem_of_singleton. lia.
  - destruct Hdr as [Hd|(r0 & Hd & Hwhere)]; [by left|right].
    exists r0. split; [done|]. destruct Hwhere as [Hout|Hhead].
    + left. intros [Hin|Heq]%elem_of_push; [done|].
      assert (r0 < length (heap s)); [|lia].
      apply Hdb. rewrite Hd. left.
    + right. apply head_Some in Hhead as [q ->]. done.
  - intros r it [Hr| ->]%elem_of_push Hit.
    + apply lookup_push in Hit as [[_ Hit]|[-> _]]; [by eapply Hst|].
      apply Hqb in Hr. lia.
    + apply lookup_push in Hit as [[Hlt _]|[_ ->]]; [lia|]. rewrite Hitem.
      rewrite bool_decide_eq_false_2; [done|]. intros Hin%Hdb. lia.
  - intros r Hr. destruct (Hlq r Hr) as [Hq Hd]. split; [|done].
    intros [Hin| ->]%elem_of_push; [done|].
    apply Hlb in Hr. lia.
  - intros r it [[_ Hit]|[_ ->]]%lookup_push; [by eapply Hc|].
    rewrite Hitem. done.
Qed.

(** A well-formed state whose loop is not running is calm once
    [isProcessing] is set. *)
Lemma idle_calm (s : server) :
  wf s → drains s = [] → calm (set_processing true s).
Proof.
  intros [Hqb Hdb Hlb Hnd Hdr Hproc Hst Hcur Hlq Hc] Hd.
  split; simpl; try done.
  - intros r it Hr Hit. rewrite (Hst r it Hr Hit), Hd.
    by rewrite bool_decide_eq_false_2 by apply not_elem_of_nil.
  - intros r Hr. by apply Hlq.
Qed.

Lemma processQueue_wf (s : server) : wf s → wf (processQueue s).1.
Proof.
  intros Hwf. unfold processQueue.
  destruct (isProcessing s) eqn:Hp; simpl; [done|].
  destruct (length (downloadQueue s) =? 0)%nat; [done|].
  apply drain_wf, idle_calm; [done|]. by apply idle_no_drains.
Qed.

Lemma queue_add_wf (v : variant) (url title : jsval) (now : N) (iso : string) (s : server) :
  wf s → wf (queue_add v url title now iso s).1.
Proof.
  intros Hwf. unfold queue_add. destruct (validate_url v url); [done|].
  match goal with |- context [set_heap (heap s ++ [?item]) s] =>
    pose proof (pushed_wf item s eq_refl Hwf) as Hpushed;
    change (set_queue _ (set_heap (heap s ++ [item]) s)) with (pushed item s);
    generalize dependent (pushed item s)
  end.
  intros s1 Hwf1. destruct (isProcessing s1) eqn:Hp; simpl; [done|].
  pose proof (processQueue_wf s1 Hwf1). by destruct (processQueue s1).
Qed.

Lemma queue_cancel_wf (i : string) (s : server) : wf s → wf (queue_cancel i s).1.
Proof.
  intros Hwf. unfold queue_cancel.
  destruct (findIndex s i (downloadQueue s)) as [index|]; [|done]. simpl.
  destruct Hwf as [Hqb Hdb Hlb Hnd Hdr Hproc Hst Hcur Hlq Hc].
  pose proof (sublist_delete (downloadQueue s) index) as Hsub.
  split; simpl; try done.
  - intros r Hr. eapply Hqb, elem_of_sublist; done.
  - by eapply sublist_NoDup.
  - destruct Hdr as [Hd|(r0 & Hd & Hwhere)]; [by left|right].
    exists r0. split; [done|]. destruct Hwhere as [Hout|Hhead].
    + left. intros Hin. eapply Hout, elem_of_sublist; done.
    + apply head_Some in Hhead as [q Hq]. rewrite Hq in Hnd |- *.
      destruct index as [|index]; simpl; [|by right].
      left. by apply NoDup_cons in Hnd as [? _].
  - intros r it Hr Hit. eapply Hst; [|done]. by eapply elem_of_sublist.
  - intros r Hr. destruct (Hlq r Hr) as [Hq Hd]. split; [|done].
    intros Hin. eapply Hq, elem_of_sublist; done.
Qed.

Lemma download_wf (v : variant) (url : jsval) (now : N) (iso : string) (s : server) :
  wf s → wf (download v url now iso s).1.
Proof.
  intros Hwf. unfold download. destruct (validate_url v url); [done|]. simpl.
  destruct Hwf as [Hqb Hdb Hlb Hnd Hdr Hproc Hst Hcur Hlq Hc].
  split; simpl; rewrite ?length_app; simpl; try done.
  - intros r Hr%Hqb. lia.
  - intros r Hr%Hdb. lia.
  - intros r [->|Hr%Hlb]%elem_of_cons; lia.
  - intros r it Hr Hit. apply lookup_push in Hit as [[_ Hit]|[-> _]]; [by eapply Hst|].
    apply Hqb in Hr. lia.
  - intros r [= <-]. right. left.
  - intros r [->|Hr]%elem_of_cons; [|by apply Hlq].
    split; [intros Hin%Hqb|intros Hin%Hdb]; lia.
  - intros r it [[_ Hit]|[_ ->]]%lookup_push; [by eapply Hc|done].
Qed.

Lemma on_close_url (it : DownloadQueueItem) :
  url (on_close (Some 0%Z) it) = JStr (download_url (video_name (on_close (Some 0%Z) it))) ∧
  filename (on_close (Some 0%Z) it) = Some (video_name (on_close (Some 0%Z) it)).
Proof. done. Qed.

Lemma close_outcome_None (code : option Z) : close_outcome code = None → code = Some 0%Z.
Proof. by destruct code as [[| |]|]. Qed.

(** Every turn keeps the state well-formed. *)
Lemma step_wf (v : variant) (s : server) (e : event) : wf s → wf (step v s e).1.
Proof.
  intros Hwf. destruct e as [url title now iso| |i|url now iso| |r line|r code stat|r message];
    simpl; try done.
  - by apply queue_add_wf.
  - by apply queue_cancel_wf.
  - by apply download_wf.
  - case_decide; [|done]. by apply alter_wf, Hwf; apply on_stdout_harmless.
  - case_decide; [|done]. apply settle_wf.
    + by apply alter_wf, Hwf; apply on_close_harmless.
    + intros ->%close_outcome_None it Hit. simpl in Hit.
      apply lookup_alter_Some in Hit as [[_ (it0 & _ & ->)]|[Hne _]]; [|done].
      apply on_close_url.
  - by apply settle_wf.
Qed.

Lemma run_cons (v : variant) (s : server) (e : event) (evs : list event) :
  run v s (e :: evs) =
    ((run v (step v s e).1 evs).1, (step v s e).2 ++ (run v (step v s e).1 evs).2).
Proof. simpl. destruct (step v s e) as [s1 a1]. simpl. by destruct (run v s1 evs). Qed.

Lemma run_wf (v : variant) (evs : list event) (s : server) : wf s → wf (run v s evs).1.
Proof.
  revert s. induction evs as [|e evs IH]; intros s Hwf; [done|].
  rewrite run_cons. simpl. by apply IH, step_wf.
Qed.

(** Every state reached from the start is well-formed. *)
Lemma reachable_wf (v : variant) (evs : list event) : wf (run v init evs).1.
Proof. apply run_wf, wf_init. Qed.

(** *** Runs that only enqueue *)

Definition terminal (st : item_status) : bool :=
  match st with
  | Scomplete | Serror => true
  | Squeued | Sdownloading => false
  end.




Lemma spawned_app (a b : list action) : spawned (a ++ b) = spawned a ++ spawned b.
Proof. apply omap_app. Qed.










(** *** One download at a time, in the order of the requests *)







(** *** What a turn does to the items *)

(** The fields of an item that are set when it is built. *)
Definition same_identity (it it' : DownloadQueueItem) : Prop :=
  id it' = id it ∧ title it' = title it ∧ addedAt it' = addedAt it.

(** Every item of [h] is still there in [h'], with the same identity. *)
Definition heap_extends (h h' : list DownloadQueueItem) : Prop :=
  ∀ r it, h !! r = Some it → ∃ it', h' !! r = Some it' ∧ same_identity it it'.

Lemma heap_extends_refl (h : list DownloadQueueItem) : heap_extends h h.
Proof. intros r it Hit. by exists it. Qed.

Lemma heap_extends_trans (h1 h2 h3 : list DownloadQueueItem) :
  heap_extends h1 h2 → heap_extends h2 h3 → heap_extends h1 h3.
Proof.
  intros H12 H23 r it Hit.
  destruct (H12 r it Hit) as (it2 & Hit2 & ? & ? & ?).
  destruct (H23 r it2 Hit2) as (it3 & Hit3 & ? & ? & ?).
  exists it3. unfold same_identity. split; [done|]. split_and!; congruence.
Qed.

Lemma heap_extends_alter (f : DownloadQueueItem → DownloadQueueItem) (r : nat)
    (h : list DownloadQueueItem) :
  (∀ it, same_identity it (f it)) → heap_extends h (alter f r h).
Proof.
  intros Hf r' it Hit. destruct (decide (r = r')) as [->|Hne].
  - exists (f it). by rewrite list_lookup_alter_eq, Hit.
  - exists it. by rewrite list_lookup_alter_ne.
Qed.

Lemma heap_extends_push (h : list DownloadQueueItem) (item : DownloadQueueItem) :
  heap_extends h (h ++ [item]).
Proof. intros r it Hit. exists it. split; [|done]. by apply lookup_app_l_Some. Qed.

Lemma on_stdout_identity (line : string) (it : DownloadQueueItem) :
  same_identity it (on_stdout line it).
Proof. unfold on_stdout. by destruct (match_progress line), (_ || _). Qed.

Lemma on_close_identity (code : option Z) (it : DownloadQueueItem) :
  same_identity it (on_close code it).
Proof. unfold on_close. by destruct code as [[| |]|]. Qed.

Lemma drain_extends (s : server) : heap_extends (heap s) (heap (drain s).1).
Proof.
  unfold drain. destruct (downloadQueue s); simpl; [apply heap_extends_refl|].
  by apply heap_extends_alter.
Qed.

Lemma settle_extends (r : nat) (outcome : option string) (stat : stat_result) (s : server) :
  heap_extends (heap s) (heap (settle r outcome stat s).1).
Proof.
  unfold settle. destruct (decide (r ∈ drains s)).
  - unfold resume. eapply heap_extends_trans; [|apply drain_extends].
    destruct outcome; simpl; by apply heap_extends_alter.
  - destruct (decide (r ∈ legacy s)); [|apply heap_extends_refl].
    unfold download_done. destruct outcome, stat; apply heap_extends_refl.
Qed.

(** No turn removes an item or changes its [id], [title] or [addedAt]. *)
Lemma step_extends (v : variant) (s : server) (e : event) :
  heap_extends (heap s) (heap (step v s e).1).
Proof.
  destruct e as [url title now iso| |i|url now iso| |r line|r code stat|r message];
    simpl; try apply heap_extends_refl.
  - unfold queue_add. destruct (validate_url v url); [apply heap_extends_refl|].
    simpl. destruct (isProcessing s) eqn:Hp; simpl; [apply heap_extends_push|].
    unfold processQueue. simpl. rewrite Hp, length_app, Nat.add_comm. simpl.
    match goal with |- context [drain ?s1] =>
      pose proof (drain_extends s1) as Hd; destruct (drain s1) as [s2 acts]
    end.
    simpl in *. eapply heap_extends_trans; [|exact Hd]. apply heap_extends_push.
  - unfold queue_cancel. destruct (findIndex _ _ _); apply heap_extends_refl.
  - unfold download. destruct (validate_url v url); [apply heap_extends_refl|].
    apply heap_extends_push.
  - case_decide; [|apply heap_extends_refl]. apply heap_extends_alter, on_stdout_identity.
  - case_decide; [|apply heap_extends_refl].
    eapply heap_extends_trans; [|apply settle_extends].
    apply heap_extends_alter, on_close_identity.
  - apply settle_extends.
Qed.

(** *** Failed downloads *)





(** *** Completed downloads *)

Lemma drains_singleton (s : server) (r : nat) : wf s → r ∈ drains s → drains s = [r].
Proof.
  intros Hwf Hr. destruct (wf_drains s Hwf) as [Hd|(r0 & Hd & _)]; rewrite Hd in Hr |- *.
  - by apply not_elem_of_nil in Hr.
  - by apply list_elem_of_singleton in Hr as ->.
Qed.

Lemma success_step (v : variant) (s : server) (r : nat) (stat : stat_result) :
  wf s → r ∈ drains s →
  step v s (Close r (Some 0%Z) stat) =
    resume r None (set_drains [] (set_heap (alter (on_close (Some 0%Z)) r (heap s)) s)).
Proof.
  intros Hwf Hr. unfold step. rewrite decide_True by auto.
  unfold settle, close_outcome. simpl. rewrite decide_True by done.
  rewrite (drains_singleton s r Hwf Hr).
  by rewrite filter_cons_False by (intros H; by apply H).
Qed.

(** *** Enqueueing *)

(** A url that is present, a non-empty string, and parses as a URL. *)
Definition well_formed_url (url : jsval) : bool :=
  match url with
  | JStr u => negb (String.eqb u EmptyString) && URL_parses u
  | _ => false
  end.

Lemma validate_url_ts (url : jsval) :
  if well_formed_url url then validate_url ServerTs url = None
  else ∃ message, validate_url ServerTs url = Some (json 400 [("error", JStr message)]).
Proof.
  unfold well_formed_url, validate_url.
  destruct url as [| |b|q|u|l|l]; simpl; rewrite ?orb_true_r; eauto.
  destruct (String.eqb u EmptyString); simpl; eauto.
  destruct (URL_parses u); eauto.
Qed.

(** [POST /queue/add] of the TypeScript server.  A url that is missing,
    not a string, empty or rejected by [new URL] is answered with status
    400 and nothing changes.  Any other url gives a new item with status
    [queued], the id of the request time and the url as submitted, pushed
    at the end of the queue; the loop is started unless it is running; the
    answer has status 200. *)
Lemma queue_add_ts_validates (url title : jsval) (now : N) (iso : string) (s : server) :
  let out := queue_add ServerTs url title now iso s in
  if well_formed_url url then
    ∃ item res,
      status item = Squeued ∧ id item = pretty now ∧ Queue.url item = url ∧
      out.1 = (if isProcessing s then pushed item s
               else (drain (set_processing true (pushed item s))).1) ∧
      downloadQueue out.1 = downloadQueue s ++ [length (heap s)] ∧
      isProcessing out.1 = true ∧
      last out.2 = Some (Respond res) ∧ res_status res = 200%nat
  else
    ∃ message, out = (s, [Respond (json 400 [("error", JStr message)])]).
Proof.
  intros out. unfold out, queue_add. pose proof (validate_url_ts url) as Hv.
  destruct (well_formed_url url); [|destruct Hv as [message ->]; eauto].
  rewrite Hv. simpl.
  exists {| id := pretty now; url := url;
            title := if truthy title then title else JStr "Video";
            status := Squeued; progress := 0; addedAt := Some iso;
            filename := None; error := None |}.
  destruct (isProcessing s) eqn:Hp; simpl.
  - eexists. unfold pushed. by rewrite Hp.
  - unfold processQueue. simpl. rewrite Hp, length_app, Nat.add_comm. simpl.
    unfold pushed, drain. simpl.
    destruct (downloadQueue s); simpl; eexists; by rewrite ?last_snoc.
Qed.

(** C8 on [server.js].  [POST /queue/add] with the url [not a url], which
    is no URL, passes the only check of [server.js] (the url is truthy): an
    item is created and queued, the loop starts and yt-dlp is spawned on
    it, and the answer is [success]. *)
Theorem queue_add_js_accepts_malformed_url (iso : string) :
  queue_add ServerJs (JStr "not a url") JUndefined 1700000000000 iso init =
    ({| heap := [ {| id := "1700000000000"; url := JStr "not a url";
                     title := JStr "Video"; status := Sdownloading; progress := 0;
                     addedAt := Some iso; filename := None; error := None |} ];
        downloadQueue := [0%nat]; currentDownload := Some 0%nat;
        isProcessing := true; drains := [0%nat]; legacy := [] |},
     [ Spawn 0 "video_1700000000000.mp4" (JStr "not a url");
       Respond (json 200 [("success", JBool true); ("id", JStr "1700000000000");
                          ("queuePosition", num_of_nat 1)]) ]).
Proof. reflexivity. Qed.

(** *** Cancelling *)

Lemma findIndex_Some (s : server) (i : string) (l : list nat) (k : nat) :
  findIndex s i l = Some k →
  ∃ l1 r l2, l = l1 ++ r :: l2 ∧ length l1 = k ∧ id <$> heap s !! r = Some i ∧
             ∀ r', r' ∈ l1 → id <$> heap s !! r' ≠ Some i.
Proof.
  revert k. induction l as [|r l IH]; intros k; [done|]. simpl.
  case_bool_decide as Hr.
  - intros [= <-]. exists [], r, l. split_and!; try done. by intros r' ?%not_elem_of_nil.
  - destruct (findIndex s i l) as [k'|]; [|done]. intros [= <-].
    destruct (IH k' eq_refl) as (l1 & r0 & l2 & -> & <- & Hr0 & Hbefore).
    exists (r :: l1), r0, l2. split_and!; try done.
    intros r' [->|Hin]%elem_of_cons; auto.
Qed.

Lemma findIndex_None (s : server) (i : string) (l : list nat) :
  findIndex s i l = None → ∀ r, r ∈ l → id <$> heap s !! r ≠ Some i.
Proof.
  induction l as [|r l IH]; [by intros _ r ?%not_elem_of_nil|]. simpl.
  case_bool_decide as Hr; [done|].
  destruct (findIndex s i l); [done|]. intros _ r' [->|Hin]%elem_of_cons; auto.
Qed.

(** [DELETE /queue/:id] takes the first entry of the queue with that id
    out of the queue and leaves everything else as it is: the other
    entries and their order, the items, [currentDownload],
    [isProcessing] and whatever download is running.  With no such
    entry it answers 404 and changes nothing. *)
Theorem queue_cancel_removes_first_match (i : string) (s : server) :
  (∃ l1 r l2,
     downloadQueue s = l1 ++ r :: l2 ∧
     id <$> heap s !! r = Some i ∧
     (∀ r', r' ∈ l1 → id <$> heap s !! r' ≠ Some i) ∧
     queue_cancel i s =
       (set_queue (l1 ++ l2) s, [Respond (json 200 [("success", JBool true)])])) ∨
  ((∀ r, r ∈ downloadQueue s → id <$> heap s !! r ≠ Some i) ∧
   queue_cancel i s = (s, [Respond (json 404 [("error", JStr "Download not found")])])).
Proof.
  unfold queue_cancel. destruct (findIndex s i (downloadQueue s)) as [k|] eqn:Hfind.
  - left. apply findIndex_Some in Hfind as (l1 & r & l2 & Hq & <- & Hr & Hbefore).
    exists l1, r, l2. split_and!; try done. by rewrite Hq, delete_middle.
  - right. split; [|done]. by apply findIndex_None.
Qed.

Lemma close_step (v : variant) (s : server) (r : nat) (code : option Z) (stat : stat_result) :
  wf s → r ∈ drains s →
  step v s (Close r code stat) =
    resume r (close_outcome code)
      (set_drains [] (set_heap (alter (on_close code) r (heap s)) s)).
Proof.
  intros Hwf Hr. unfold step. rewrite decide_True by auto.
  unfold settle. simpl. rewrite decide_True by done.
  rewrite (drains_singleton s r Hwf Hr).
  by rewrite filter_cons_False by (intros H; by apply H).
Qed.

(** Cancelling the job that is being downloaded does not stop it: its
    process stays awaited and [currentDownload] still names it.  When
    that download then ends, [downloadQueue.shift()] removes the job
    that had moved to the head of the queue: this next job leaves the
    queue without ever being started and its status stays [queued]. *)
Theorem cancel_active_job_skips_next (v : variant) (evs : list event) (i : string)
    (r r' : nat) (q : list nat) (code : option Z) (stat : stat_result) :
  let s := (run v init evs).1 in
  let s1 := (step v s (QueueCancel i)).1 in
  let done := step v s1 (Close r code stat) in
  downloadQueue s = r :: r' :: q →
  r ∈ drains s →
  id <$> heap s !! r = Some i →
  s1 = set_queue (r' :: q) s ∧
  (step v s (QueueCancel i)).2 = [Respond (json 200 [("success", JBool true)])] ∧
  downloadQueue done.1 = q ∧
  (r' ∉ spawned done.2) ∧
  (r' ∉ drains done.1) ∧
  status <$> heap done.1 !! r' = Some Squeued.
Proof.
  intros s s1 done' Hq Hr Hid.
  pose proof (reachable_wf v evs) as Hwf. fold s in Hwf.
  assert (step v s (QueueCancel i) =
          (set_queue (r' :: q) s, [Respond (json 200 [("success", JBool true)])])) as Hcancel.
  { simpl. unfold queue_cancel. rewrite Hq. simpl. by rewrite bool_decide_eq_true_2. }
  assert (s1 = set_queue (r' :: q) s) as Hs1 by (unfold s1; by rewrite Hcancel).
  assert (wf s1) as Hwf1 by apply step_wf, Hwf.
  split; [done|]. split; [by rewrite Hcancel|].
  pose proof (wf_queue_nodup s Hwf) as Hnd. rewrite Hq in Hnd.
  apply NoDup_cons in Hnd as [Hrq Hnd]. apply NoDup_cons in Hnd as [Hr'q Hnd].
  assert (r ≠ r') as Hne by (intros ->; apply Hrq; by left).
  assert (r' < length (heap s)) as Hbound
    by (apply (wf_queue_bound s Hwf); rewrite Hq; right; by left).
  apply lookup_lt_is_Some in Hbound as [it' Hit'].
  assert (status it' = Squeued) as Hst'.
  { rewrite (wf_status s Hwf r' it'); [|rewrite Hq; right; by left|done].
    rewrite bool_decide_eq_false_2; [done|].
    rewrite (drains_singleton s r Hwf Hr). by intros ?%list_elem_of_singleton. }
  unfold done'. rewrite (close_step v s1 r code stat Hwf1) by (rewrite Hs1; exact Hr).
  rewrite Hs1.
  unfold resume, drain.
  destruct q as [|r'' q].
  - destruct (close_outcome code) as [message|]; simpl.
    all: split; [done|]; split; [apply not_elem_of_nil|]; split; [apply not_elem_of_nil|].
    all: rewrite !list_lookup_alter_ne, Hit' by done; simpl; by rewrite Hst'.
  - assert (r'' ≠ r') as Hne' by (intros ->; apply Hr'q; by left).
    destruct (close_outcome code) as [message|]; simpl.
    all: split; [done|]; split; [|split; [by intros ?%list_elem_of_singleton|]].
    all: try (rewrite !list_lookup_alter_ne, Hit' by done; simpl; by rewrite Hst').
    all: unfold downloadVideo; simpl; destruct (_ !! r''); simpl.
    all: by (intros ?%list_elem_of_singleton || intros ?%not_elem_of_nil).
Qed.

(** *** The legacy download beside the queue *)

(** When the process of a [POST /download] request ends, the request is
    answered, with 200 only after exit code 0 and a result file whose
    size can be read, and [currentDownload] is reset, also while the
    queue is downloading another job.  The queue, the loop and the
    flag [isProcessing] are left alone, and the status of the item is
    never moved on from [downloading]. *)
Theorem legacy_download_completion (v : variant) (evs : list event) (r : nat)
    (code : option Z) (stat : stat_result) :
  let s := (run v init evs).1 in
  let out := step v s (Close r code stat) in
  r ∈ legacy s →
  currentDownload out.1 = None ∧
  downloadQueue out.1 = downloadQueue s ∧
  drains out.1 = drains s ∧
  isProcessing out.1 = isProcessing s ∧
  legacy out.1 = filter (λ x, x ≠ r) (legacy s) ∧
  heap out.1 = alter (on_close code) r (heap s) ∧
  status <$> heap out.1 !! r = status <$> heap s !! r ∧
  ∃ res, out.2 = [Respond res] ∧
         (res_status res = 200%nat ↔ code = Some 0%Z ∧ ∃ n, stat = StatSize n).
Proof.
  intros s out Hr. pose proof (reachable_wf v evs) as Hwf. fold s in Hwf.
  destruct (wf_legacy_queue s Hwf r Hr) as [_ Hnd].
  assert (out = download_done r (close_outcome code) stat
                  (set_legacy (filter (λ x, x ≠ r) (legacy s))
                     (set_heap (alter (on_close code) r (heap s)) s))) as ->.
  { unfold out, step. rewrite decide_True by auto. unfold settle. simpl.
    by rewrite decide_False, decide_True by done. }
  assert (status <$> alter (on_close code) r (heap s) !! r = status <$> heap s !! r) as Hst.
  { rewrite list_lookup_alter_eq. destruct (heap s !! r) as [it|]; [|done]. simpl.
    by destruct (on_close_harmless code it) as [-> _]. }
  unfold download_done.
  destruct (close_outcome code) as [message|] eqn:Hcode.
  - simpl. split_and!; try done. eexists. split; [done|]. simpl.
    split; [done|]. intros [-> _]. done.
  - apply close_outcome_None in Hcode as ->.
    destruct stat as [n|message]; simpl; (split_and!; try done); eexists; (split; [done|]);
      simpl.
    + split; [by eauto|done].
    + split; [done|]. by intros [_ [? ?]].
Qed.

(** *** Processes and the items they download *)

(** What a state and the actions that led to it satisfy, whatever the
    requests: no item has been handed to yt-dlp twice, a queued item
    that has been started is the one awaited, and every item whose
    download is awaited has been started and has status [downloading]. *)
Record tracked (s : server) (acts : list action) : Prop := {
  tracked_nodup : NoDup (spawned acts);
  tracked_bound : ∀ r, r ∈ spawned acts → r < length (heap s);
  tracked_waiting : ∀ r, r ∈ downloadQueue s → r ∈ spawned acts → r ∈ drains s;
  tracked_active :
    ∀ r, r ∈ drains s ∨ r ∈ legacy s →
      status <$> heap s !! r = Some Sdownloading ∧ r ∈ spawned acts;
}.

Lemma tracked_init : tracked init [].
Proof.
  split; simpl; try (by intros r ?%not_elem_of_nil); [constructor|].
  by intros r [?%not_elem_of_nil|?%not_elem_of_nil].
Qed.

Lemma tracked_respond (s : server) (acts : list action) (res : response) :
  tracked s acts → tracked s (acts ++ [Respond res]).
Proof.
  intros [Hnd Hb Hw Ha]. assert (spawned (acts ++ [Respond res]) = spawned acts) as Hsp
    by (rewrite spawned_app; apply app_nil_r).
  split; rewrite ?Hsp; done.
Qed.

Lemma tracked_alter (f : DownloadQueueItem → DownloadQueueItem) (r : nat)
    (s : server) (acts : list action) :
  (∀ it, status (f it) = status it) →
  tracked s acts → tracked (set_heap (alter f r (heap s)) s) acts.
Proof.
  intros Hf [Hnd Hb Hw Ha]. split; simpl; rewrite ?length_alter; try done.
  intros r' Hr'. destruct (Ha r' Hr') as [Hst Hsp]. split; [|done].
  destruct (decide (r = r')) as [->|Hne].
  - rewrite list_lookup_alter_eq. destruct (heap s !! r') as [it|]; [|done].
    simpl in *. by rewrite Hf.
  - by rewrite list_lookup_alter_ne.
Qed.

(** The loop goes on from a state in which nothing is awaited and no
    queued item has been started. *)
Lemma drain_tracked (s : server) (acts : list action) :
  tracked s acts →
  drains s = [] →
  (∀ r, r ∈ downloadQueue s → r < length (heap s)) →
  tracked (drain s).1 (acts ++ (drain s).2).
Proof.
  intros [Hnd Hb Hw Ha] Hd Hqb. unfold drain.
  destruct (downloadQueue s) as [|r q] eqn:Hq; simpl.
  { rewrite app_nil_r. split; simpl; rewrite ?Hq; done. }
  assert (r ∉ spawned acts) as Hfresh.
  { intros Hin. specialize (Hw r ltac:(left) Hin). rewrite Hd in Hw.
    by apply not_elem_of_nil in Hw. }
  destruct (lookup_lt_is_Some_2 (heap s) r) as [it Hit]; [apply Hqb; left|].
  assert (spawned (acts ++ downloadVideo
            (set_heap (alter (with_status Sdownloading) r (heap s))
               (set_current (Some r) s)) r) = spawned acts ++ [r]) as Hsp.
  { rewrite spawned_app. unfold downloadVideo. simpl.
    by rewrite list_lookup_alter_eq, Hit. }
  split; simpl; rewrite ?Hsp, ?Hd, ?Hq, ?length_alter.
  - apply NoDup_app. split; [done|]. split; [|apply NoDup_singleton].
    intros x Hx ->%list_elem_of_singleton. done.
  - intros r' [Hr'| ->]%elem_of_push; [by apply Hb|]. apply Hqb. left.
  - intros r' Hr' [Hsp'| ->]%elem_of_push; [|left].
    destruct (decide (r' = r)) as [->|Hne]; [done|].
    specialize (Hw r' Hr' Hsp'). rewrite Hd in Hw. by apply not_elem_of_nil in Hw.
  - intros r' [->%list_elem_of_singleton|Hr'].
    + rewrite list_lookup_alter_eq, Hit. split; [done|]. apply elem_of_push. by right.
    + destruct (Ha r' (or_intror Hr')) as [Hst Hin].
      split; [|apply elem_of_push; by left].
      destruct (decide (r = r')) as [->|Hne].
      * by rewrite list_lookup_alter_eq, Hit.
      * by rewrite list_lookup_alter_ne.
Qed.

Lemma settle_tracked (r : nat) (outcome : option string) (stat : stat_result)
    (s : server) (acts : list action) :
  wf s → tracked s acts →
  tracked (settle r outcome stat s).1 (acts ++ (settle r outcome stat s).2).
Proof.
  intros Hwf Htr. unfold settle. case_decide as Hr; [|case_decide as Hl].
  - rewrite (drains_singleton s r Hwf Hr).
    rewrite filter_cons_False by (intros H; by apply H). rewrite filter_nil.
    unfold resume.
    match goal with |- context [drain ?s0] => set (s1 := s0) end.
    assert (∃ f, heap s1 = alter f r (heap s) ∧ downloadQueue s1 = tail (downloadQueue s) ∧
                 drains s1 = [] ∧ legacy s1 = legacy s) as (f & Hh & Hq & Hd & Hleg).
    { unfold s1. destruct outcome; eexists; done. }
    pose proof (awaited_not_in_tail s r Hwf Hr) as Hout.
    destruct Htr as [Hnd Hb Hw Ha].
    apply drain_tracked; [|done|].
    + split; rewrite ?Hh, ?Hq, ?Hd, ?Hleg, ?length_alter; try done.
      * intros r' Hr' Hsp. apply elem_of_tail in Hr' as Hr''.
        specialize (Hw r' Hr'' Hsp). rewrite (drains_singleton s r Hwf Hr) in Hw.
        apply list_elem_of_singleton in Hw as ->. done.
      * intros r' [?%not_elem_of_nil|Hr']; [done|].
        destruct (Ha r' (or_intror Hr')) as [Hst Hsp]. split; [|done].
        rewrite list_lookup_alter_ne; [done|]. intros <-.
        by destruct (wf_legacy_queue s Hwf r Hr').
    + intros r' Hr'. rewrite Hh, length_alter. rewrite Hq in Hr'.
      by apply (wf_queue_bound s Hwf), elem_of_tail.
  - unfold download_done.
    assert (tracked (set_current None (set_legacy (filter (λ x, x ≠ r) (legacy s)) s)) acts)
      as Htr'.
    { destruct Htr as [Hnd Hb Hw Ha]. split; simpl; try done.
      intros r' [Hr'|[_ Hr']%list_elem_of_filter]; apply Ha; auto. }
    destruct outcome as [message|]; [|destruct stat]; simpl; by apply tracked_respond.
  - simpl. by rewrite app_nil_r.
Qed.

Lemma pushed_tracked (item : DownloadQueueItem) (s : server) (acts : list action) :
  wf s → tracked s acts → tracked (pushed item s) acts.
Proof.
  intros Hwf [Hnd Hb Hw Ha]. split; simpl; try done.
  - intros r Hr. rewrite length_app. specialize (Hb r Hr). lia.
  - intros r [Hr| ->]%elem_of_push Hsp; [by apply Hw|].
    specialize (Hb _ Hsp). lia.
  - intros r Hr. destruct (Ha r Hr) as [Hst Hsp]. split; [|done].
    rewrite lookup_app_l; [done|]. by apply Hb.
Qed.

Lemma queue_add_tracked (v : variant) (url title : jsval) (now : N) (iso : string)
    (s : server) (acts : list action) :
  wf s → tracked s acts →
  tracked (queue_add v url title now iso s).1 (acts ++ (queue_add v url title now iso s).2).
Proof.
  intros Hwf Htr. unfold queue_add.
  destruct (validate_url v url); [by apply tracked_respond|].
  match goal with |- context [set_heap (heap s ++ [?item]) s] =>
    pose proof (pushed_wf item s eq_refl Hwf) as Hwf1;
    pose proof (pushed_tracked item s acts Hwf Htr) as Htr1;
    change (set_queue _ (set_heap (heap s ++ [item]) s)) with (pushed item s);
    generalize dependent (pushed item s)
  end.
  intros s1 Hwf1 Htr1. destruct (isProcessing s1) eqn:Hp; simpl.
  { by apply tracked_respond. }
  unfold processQueue. rewrite Hp. simpl.
  destruct (length (downloadQueue s1) =? 0)%nat; simpl; [by apply tracked_respond|].
  assert (tracked (drain (set_processing true s1)).1
            (acts ++ (drain (set_processing true s1)).2)) as Hdrain.
  { apply drain_tracked.
    - destruct Htr1. by split.
    - simpl. by apply idle_no_drains.
    - simpl. apply (wf_queue_bound s1 Hwf1). }
  destruct (drain (set_processing true s1)) as [s2 acts2]. simpl in *.
  rewrite app_assoc. by apply tracked_respond.
Qed.

Lemma queue_cancel_tracked (i : string) (s : server) (acts : list action) :
  tracked s acts → tracked (queue_cancel i s).1 (acts ++ (queue_cancel i s).2).
Proof.
  intros Htr. unfold queue_cancel.
  destruct (findIndex s i (downloadQueue s)) as [index|]; [|by apply tracked_respond].
  apply tracked_respond. destruct Htr as [Hnd Hb Hw Ha]. split; simpl; try done.
  intros r Hr. apply Hw. eapply elem_of_sublist; [done|apply sublist_delete].
Qed.

Lemma download_tracked (v : variant) (url : jsval) (now : N) (iso : string)
    (s : server) (acts : list action) :
  wf s → tracked s acts →
  tracked (download v url now iso s).1 (acts ++ (download v url now iso s).2).
Proof.
  intros Hwf [Hnd Hb Hw Ha]. unfold download.
  destruct (validate_url v url); [by apply tracked_respond|].
  unfold downloadVideo. simpl. rewrite list_lookup_middle by done. simpl.
  assert (length (heap s) ∉ spawned acts) as Hfresh.
  { intros Hin. specialize (Hb _ Hin). lia. }
  split; simpl; rewrite ?spawned_app; simpl.
  - apply NoDup_app. split; [done|]. split; [|apply NoDup_singleton].
    by intros x Hx ->%list_elem_of_singleton.
  - intros r [Hr| ->]%elem_of_push; rewrite length_app; simpl; [|lia].
    specialize (Hb r Hr). lia.
  - intros r Hr [Hsp| ->]%elem_of_push; [by apply Hw|].
    apply (wf_queue_bound s Hwf) in Hr. lia.
  - intros r [Hr|[->|Hr]%elem_of_cons].
    + destruct (Ha r (or_introl Hr)) as [Hst Hsp]. split; [|apply elem_of_push; by left].
      rewrite lookup_app_l; [done|]. by apply Hb.
    + rewrite list_lookup_middle by done. split; [done|]. apply elem_of_push. by right.
    + destruct (Ha r (or_intror Hr)) as [Hst Hsp]. split; [|apply elem_of_push; by left].
      rewrite lookup_app_l; [done|]. by apply Hb.
Qed.

Lemma step_tracked (v : variant) (s : server) (acts : list action) (e : event) :
  wf s → tracked s acts → tracked (step v s e).1 (acts ++ (step v s e).2).
Proof.
  intros Hwf Htr.
  destruct e as [url title now iso| |i|url now iso| |r line|r code stat|r message]; simpl.
  - by apply queue_add_tracked.
  - by apply tracked_respond.
  - by apply queue_cancel_tracked.
  - by apply download_tracked.
  - by apply tracked_respond.
  - case_decide; simpl; rewrite app_nil_r; [|done].
    apply tracked_alter; [|done]. intros it. by destruct (on_stdout_harmless line it).
  - case_decide; [|by simpl; rewrite app_nil_r].
    apply settle_tracked.
    + by apply alter_wf, Hwf; apply on_close_harmless.
    + apply tracked_alter; [|done]. intros it. by destruct (on_close_harmless code it).
  - by apply settle_tracked.
Qed.

Lemma run_tracked (v : variant) (evs : list event) (s : server) (acts : list action) :
  wf s → tracked s acts → tracked (run v s evs).1 (acts ++ (run v s evs).2).
Proof.
  revert s acts. induction evs as [|e evs IH]; intros s acts Hwf Htr.
  { simpl. by rewrite app_nil_r. }
  rewrite run_cons. simpl. rewrite app_assoc.
  apply IH; [by apply step_wf|by apply step_tracked].
Qed.

(** In any run, whatever is requested, cancelled or downloaded beside
    the queue, no item is handed to yt-dlp twice, and every download
    that has been started is that of an item of the server. *)
Theorem no_job_spawned_twice (v : variant) (evs : list event) :
  NoDup (spawned (run v init evs).2) ∧
  ∀ r, r ∈ spawned (run v init evs).2 → is_Some (heap (run v init evs).1 !! r).
Proof.
  pose proof (run_tracked v evs init [] wf_init tracked_init) as [Hnd Hb _ _].
  simpl in *. split; [done|]. intros r Hr. by apply lookup_lt_is_Some, Hb.
Qed.


(** *** The queue runs dry *)






(** *** Progress *)

Lemma digits_app (w rest : string) (ds : list nat) :
  digits w = (ds, EmptyString) → digits rest = ([], rest) →
  digits (w +:+ rest) = (ds, rest).
Proof.
  revert ds. induction w as [|c w IH]; intros ds Hw Hrest.
  - injection Hw as <-. done.
  - rewrite Str.app_cons. simpl in *. destruct (Ascii.is_nat c) as [d|]; [|done].
    destruct (digits w) as [ds' r']. injection Hw as <- ->. by rewrite (IH ds').
Qed.

Lemma match_progress_skip (pre t : string) :
  Forall (λ c, Ascii.is_nat c = None) (String.list_ascii_of_string pre) →
  match_progress (pre +:+ t) = match_progress t.
Proof.
  induction pre as [|c pre IH]; [done|]. intros [Hc Hpre]%Forall_cons.
  rewrite Str.app_cons. cbn [match_progress]. unfold match_here. cbn [digits].
  rewrite Hc. by apply IH.
Qed.

Lemma match_progress_here (t : string) (m : list nat * list nat) :
  match_here t = Some m → match_progress t = Some m.
Proof. intros Hhere. destruct t; cbn [match_progress]; by rewrite Hhere. Qed.

(** A line of yt-dlp of the form [... 45.2% ...] or [... 45% ...], with
    no digit before the number: the pattern finds the digits of the
    number, and for a whole number below 2^53, which a double holds
    exactly, the handler of [stdout] stores that number as the progress
    of the item. *)
Theorem on_stdout_reads_percentage (pre w f post : string) (whole frac : list nat)
    (it : DownloadQueueItem) :
  Forall (λ c, Ascii.is_nat c = None) (String.list_ascii_of_string pre) →
  digits w = (whole, EmptyString) → whole ≠ [] →
  digits f = (frac, EmptyString) →
  match_progress (pre +:+ w +:+ "." +:+ f +:+ "%" +:+ post) = Some (whole, frac) ∧
  match_progress (pre +:+ w +:+ "%" +:+ post) = Some (whole, []) ∧
  ((decimal whole < 2 ^ 53)%Z →
   (progress (on_stdout (pre +:+ w +:+ "%" +:+ post) it) == inject_Z (decimal whole))%Q).
Proof.
  intros Hpre Hw Hne Hf.
  assert (match_progress (pre +:+ w +:+ "%" +:+ post) = Some (whole, [])) as Hint.
  { rewrite match_progress_skip by done. apply match_progress_here.
    unfold match_here. rewrite (digits_app w _ whole) by done.
    by destruct whole as [|d whole]. }
  split; [|split; [done|]].
  - rewrite match_progress_skip by done. apply match_progress_here.
    unfold match_here. rewrite (digits_app w _ whole) by done.
    destruct whole as [|d whole]; [done|].
    change ("." +:+ f +:+ "%" +:+ post) with (String "."%char (f +:+ "%" +:+ post)).
    cbn [Ascii.eqb Bool.eqb andb]. by rewrite (digits_app f _ frac).
  - intros _. unfold on_stdout. rewrite Hint.
    assert (parseFloat (whole, []) == inject_Z (decimal whole))%Q as Hval.
    { unfold parseFloat. cbn [fst snd length]. rewrite app_nil_r.
      unfold Qeq. simpl. lia. }
    by destruct (_ || _).
Qed.

Lemma decimal_nonneg (ds : list nat) : (0 ≤ decimal ds)%Z.
Proof.
  unfold decimal.
  assert (∀ acc, (0 ≤ acc)%Z →
            (0 ≤ foldl (λ acc d, 10 * acc + Z.of_nat d)%Z acc ds)%Z) as H.
  { induction ds as [|d ds IH]; intros acc Hacc; [done|]. simpl. apply IH. lia. }
  by apply H.
Qed.

Lemma parseFloat_nonneg (m : list nat * list nat) : (0 <= parseFloat m)%Q.
Proof.
  unfold parseFloat. apply Qle_shift_div_l.
  - change 0%Q with (inject_Z 0). rewrite <-Zlt_Qlt. lia.
  - rewrite Qmult_0_l. change 0%Q with (inject_Z 0). rewrite <-Zle_Qle.
    apply decimal_nonneg.
Qed.

Definition nonneg (it : DownloadQueueItem) : Prop := (0 <= progress it)%Q.

Lemma on_stdout_nonneg (line : string) (it : DownloadQueueItem) :
  nonneg it → nonneg (on_stdout line it).
Proof.
  unfold on_stdout, nonneg. intros Hit.
  destruct (match_progress line) as [m|]; destruct (_ || _); simpl;
    by try apply parseFloat_nonneg.
Qed.

Lemma drain_nonneg (s : server) :
  Forall nonneg (heap s) → Forall nonneg (heap (drain s).1).
Proof.
  intros Hs. unfold drain. destruct (downloadQueue s) as [|r q]; [done|]. simpl.
  by apply Forall_alter.
Qed.

Lemma settle_nonneg (r : nat) (outcome : option string) (stat : stat_result) (s : server) :
  Forall nonneg (heap s) → Forall nonneg (heap (settle r outcome stat s).1).
Proof.
  intros Hs. unfold settle. case_decide; [|case_decide; [|done]].
  - unfold resume. apply drain_nonneg. destruct outcome; simpl; by apply Forall_alter.
  - unfold download_done. by destruct outcome, stat.
Qed.

Lemma step_nonneg (v : variant) (s : server) (e : event) :
  Forall nonneg (heap s) → Forall nonneg (heap (step v s e).1).
Proof.
  intros Hs.
  destruct e as [url title now iso| |i|url now iso| |r line|r code stat|r message];
    simpl; try done.
  - unfold queue_add. destruct (validate_url v url); [done|].
    match goal with |- context [set_queue ?q (set_heap ?h s)] =>
      assert (Forall nonneg (heap (set_queue q (set_heap h s)))) as Hpushed
        by (by apply Forall_app; split; [|repeat constructor]);
      generalize dependent (set_queue q (set_heap h s))
    end.
    intros s1 Hs1. destruct (isProcessing s1) eqn:Hp; simpl; [done|].
    unfold processQueue. rewrite Hp. simpl.
    destruct (length (downloadQueue s1) =? 0)%nat; [done|].
    pose proof (drain_nonneg (set_processing true s1) Hs1).
    by destruct (drain (set_processing true s1)).
  - unfold queue_cancel. by destruct (findIndex _ _ _).
  - unfold download. destruct (validate_url v url); [done|]. simpl.
    apply Forall_app. split; [done|]. by repeat constructor.
  - case_decide; [|done]. simpl. apply Forall_alter; [done|].
    intros it _. apply on_stdout_nonneg.
  - case_decide; [|done]. apply settle_nonneg. simpl. apply Forall_alter; [done|].
    intros it _. unfold on_close, nonneg. by destruct code as [[|p|p]|].
  - by apply settle_nonneg.
Qed.

(** The progress of an item is never negative, whatever yt-dlp prints:
    it starts at 0, a progress line sets it to the number the line
    holds, and a completed job is set to 100. *)
Theorem progress_never_negative (v : variant) (evs : list event) :
  Forall (λ it, (0 <= progress it)%Q) (heap (run v init evs).1).
Proof.
  assert (∀ s, Forall nonneg (heap s) → Forall nonneg (heap (run v s evs).1)) as Hrun.
  { induction evs as [|e evs IH]; intros s Hs; [done|].
    rewrite run_cons. simpl. by apply IH, step_nonneg. }
  apply (Hrun init). constructor.
Qed.

(** *** The queue never stalls *)




(** *** Finished jobs *)

Lemma drain_frame (s : server) (r : nat) :
  r ∉ downloadQueue s → heap (drain s).1 !! r = heap s !! r.
Proof.
  unfold drain. destruct (downloadQueue s) as [|r' q]; [done|]. simpl.
  intros Hr. rewrite list_lookup_alter_ne; [done|]. intros ->. apply Hr. left.
Qed.

Lemma settle_frame (r' : nat) (outcome : option string) (stat : stat_result)
    (s : server) (r : nat) :
  r ∉ drains s → r ∉ downloadQueue s →
  heap (settle r' outcome stat s).1 !! r = heap s !! r.
Proof.
  intros Hd Hq. unfold settle. case_decide as Hr'; [|case_decide; [|done]].
  - assert (r' ≠ r) as Hne by (by intros ->).
    unfold resume. rewrite drain_frame.
    + destruct outcome; simpl; by rewrite list_lookup_alter_ne.
    + destruct outcome; simpl; by intros ?%elem_of_tail.
  - unfold download_done. by destruct outcome, stat.
Qed.

(** An item that is [complete] or [error] is nowhere in the queue and
    awaited by nothing. *)
Lemma terminal_idle (s : server) (acts : list action) (r : nat) (it : DownloadQueueItem) :
  wf s → tracked s acts → heap s !! r = Some it → terminal (status it) = true →
  (r ∉ downloadQueue s) ∧ ¬ (r ∈ drains s ∨ r ∈ legacy s).
Proof.
  intros Hwf Htr Hit Hterm. split.
  - intros Hq. rewrite (wf_status s Hwf r it Hq Hit) in Hterm. by case_bool_decide.
  - intros Hactive. destruct (tracked_active s acts Htr r Hactive) as [Hst _].
    rewrite Hit in Hst. injection Hst as Hst. by rewrite Hst in Hterm.
Qed.

Lemma step_frozen (v : variant) (s : server) (acts : list action) (e : event)
    (r : nat) (it : DownloadQueueItem) :
  wf s → tracked s acts → heap s !! r = Some it → terminal (status it) = true →
  heap (step v s e).1 !! r = Some it.
Proof.
  intros Hwf Htr Hit Hterm.
  destruct (terminal_idle s acts r it Hwf Htr Hit Hterm) as [Hq Hactive].
  assert (r < length (heap s)) as Hbound by (by eapply lookup_lt_Some).
  destruct e as [url title now iso| |i|url now iso| |r' line|r' code stat|r' message];
    simpl; try done.
  - unfold queue_add. destruct (validate_url v url); [done|].
    match goal with |- context [set_queue ?q (set_heap ?h s)] =>
      assert (heap (set_queue q (set_heap h s)) !! r = Some it) as Hit1
        by (simpl; by rewrite lookup_app_l);
      assert (r ∉ downloadQueue (set_queue q (set_heap h s))) as Hq1
        by (simpl; intros [?| ->]%elem_of_push; [done|lia]);
      generalize dependent (set_queue q (set_heap h s))
    end.
    intros s1 Hit1 Hq1. destruct (isProcessing s1) eqn:Hp; simpl; [done|].
    unfold processQueue. rewrite Hp. simpl.
    destruct (length (downloadQueue s1) =? 0)%nat; [done|].
    pose proof (drain_frame (set_processing true s1) r Hq1) as Hframe.
    destruct (drain (set_processing true s1)). simpl in *. by rewrite Hframe.
  - unfold queue_cancel. by destruct (findIndex _ _ _).
  - unfold download. destruct (validate_url v url); [done|]. simpl.
    by rewrite lookup_app_l.
  - case_decide as Hr'; [|done]. simpl.
    rewrite list_lookup_alter_ne; [done|]. by intros ->.
  - case_decide as Hr'; [|done]. rewrite settle_frame; simpl; [|tauto|done].
    rewrite list_lookup_alter_ne; [done|]. by intros ->.
  - rewrite settle_frame; [done|tauto|done].
Qed.

(** Once a job is [complete] or [error], its item never changes again,
    whatever requests and process events follow: a finished item is out
    of the queue, nothing awaits it, and no handler touches it. *)
Theorem finished_items_are_final (v : variant) (evs evs' : list event)
    (r : nat) (it : DownloadQueueItem) :
  let s := (run v init evs).1 in
  heap s !! r = Some it → terminal (status it) = true →
  (r ∉ downloadQueue s) ∧ (r ∉ drains s) ∧ (r ∉ legacy s) ∧
  heap (run v s evs').1 !! r = Some it.
Proof.
  intros s Hit Hterm.
  pose proof (reachable_wf v evs) as Hwf.
  pose proof (run_tracked v evs init [] wf_init tracked_init) as Htr. fold s in Hwf, Htr.
  destruct (terminal_idle s _ r it Hwf Htr Hit Hterm) as [Hq Hactive].
  split; [done|]. split; [tauto|]. split; [tauto|].
  clear Hq Hactive. revert Hwf Htr Hit. generalize s ([] ++ (run v init evs).2).
  clear s. induction evs' as [|e evs' IH]; intros s acts Hwf Htr Hit; [done|].
  rewrite run_cons. simpl.
  apply (IH _ (acts ++ (step v s e).2));
    [by apply step_wf|by apply step_tracked|by eapply step_frozen].
Qed.

(** *** Items and the requests they come from *)

(** The item an accepted request to [/queue/add] or [/download] builds;
    a rejected request, or any other turn, builds none. *)
Definition built (v : variant) (e : event) : list DownloadQueueItem :=
  match e with
  | QueueAdd url title now iso =>
      match validate_url v url with
      | Some _ => []
      | None =>
          [ {| id := pretty now; url := url;
               title := if truthy title then title else JStr "Video";
               status := Squeued; progress := 0; addedAt := Some iso;
               filename := None; error := None |} ]
      end
  | Download url now iso =>
      match validate_url v url with
      | Some _ => []
      | None =>
          [ {| id := pretty now; url := url; title := JStr "Video";
               status := Sdownloading; progress := 0;
               addedAt := match v with ServerTs => Some iso | ServerJs => None end;
               filename := None; error := None |} ]
      end
  | _ => []
  end.

(** The items the requests of a run build, in order, as they are when
    they are built. *)
Definition enqueued (v : variant) (evs : list event) : list DownloadQueueItem :=
  evs ≫= built v.

(** An item is shown or worked on: it is queued, or its download is
    awaited by the loop or by a legacy request. *)
Definition active (s : server) (r : nat) : Prop :=
  r ∈ downloadQueue s ∨ r ∈ drains s ∨ r ∈ legacy s.

(** The items of [s] are those of [l], in order, with the [id], [title]
    and [addedAt] they were built with, and with the [url] they were
    built with as long as they are active ([ex] excepted). *)
Record origin (ex : nat → Prop) (s : server) (l : list DownloadQueueItem) : Prop := {
  origin_length : length (heap s) = length l;
  origin_identity :
    ∀ r it it0, heap s !! r = Some it → l !! r = Some it0 →
      id it = id it0 ∧ title it = title it0 ∧ addedAt it = addedAt it0;
  origin_url :
    ∀ r it it0, heap s !! r = Some it → l !! r = Some it0 →
      active s r → ¬ ex r → url it = url it0;
}.

Definition keeps_identity (f : DownloadQueueItem → DownloadQueueItem) : Prop :=
  ∀ it, id (f it) = id it ∧ title (f it) = title it ∧ addedAt (f it) = addedAt it.

Lemma origin_alter_at (ex : nat → Prop) (f : DownloadQueueItem → DownloadQueueItem)
    (r : nat) (s : server) (l : list DownloadQueueItem) :
  keeps_identity f →
  origin ex s l → origin (λ x, ex x ∨ x = r) (set_heap (alter f r (heap s)) s) l.
Proof.
  intros Hf [Hlen Hid Hurl]. split; simpl.
  - by rewrite length_alter.
  - intros r' it' it0 Hit' Hit0.
    apply lookup_alter_Some in Hit' as [[<- (it & Hit & ->)]|[Hne Hit']]; [|by eapply Hid].
    destruct (Hf it) as (-> & -> & ->). by eapply Hid.
  - intros r' it' it0 Hit' Hit0 Hact Hex.
    apply lookup_alter_Some in Hit' as [[<- (it & Hit & ->)]|[Hne Hit']].
    + destruct Hex. by right.
    + eapply Hurl; eauto.
Qed.

Lemma origin_alter (ex : nat → Prop) (f : DownloadQueueItem → DownloadQueueItem)
    (r : nat) (s : server) (l : list DownloadQueueItem) :
  keeps_identity f → (∀ it, url (f it) = url it) →
  origin ex s l → origin ex (set_heap (alter f r (heap s)) s) l.
Proof.
  intros Hf Hfu [Hlen Hid Hurl]. split; simpl.
  - by rewrite length_alter.
  - intros r' it' it0 Hit' Hit0.
    apply lookup_alter_Some in Hit' as [[<- (it & Hit & ->)]|[Hne Hit']]; [|by eapply Hid].
    destruct (Hf it) as (-> & -> & ->). by eapply Hid.
  - intros r' it' it0 Hit' Hit0 Hact Hex.
    apply lookup_alter_Some in Hit' as [[<- (it & Hit & ->)]|[Hne Hit']].
    + rewrite Hfu. eapply Hurl; eauto.
    + eapply Hurl; eauto.
Qed.

(** Fewer items active, the same items. *)
Lemma origin_shrink (ex : nat → Prop) (s s' : server) (l : list DownloadQueueItem) :
  heap s' = heap s → (∀ r, active s' r → active s r) →
  origin ex s l → origin ex s' l.
Proof.
  intros Hheap Hact [Hlen Hid Hurl]. split; rewrite ?Hheap; try done.
  intros r it it0 Hit Hit0 Hr Hex. eapply Hurl; eauto.
Qed.

Lemma origin_clear (ex : nat → Prop) (s : server) (l : list DownloadQueueItem) :
  (∀ r, ex r → ¬ active s r) → origin ex s l → origin (λ _, False) s l.
Proof.
  intros Hex [Hlen Hid Hurl]. split; try done.
  intros r it it0 Hit Hit0 Hr _. eapply Hurl; eauto. intros Hx. by apply (Hex r).
Qed.

Lemma origin_push (ex : nat → Prop) (s s' : server) (l : list DownloadQueueItem)
    (item : DownloadQueueItem) :
  heap s' = heap s ++ [item] →
  (∀ r, active s' r → active s r ∨ r = length (heap s)) →
  origin ex s l → origin ex s' (l ++ [item]).
Proof.
  intros Hheap Hact [Hlen Hid Hurl]. split; rewrite ?Hheap.
  - rewrite !length_app. simpl. lia.
  - intros r it it0 [[Hr Hit]|[-> ->]]%lookup_push Hit0.
    + rewrite lookup_app_l in Hit0 by lia. by eapply Hid.
    + rewrite Hlen, list_lookup_middle in Hit0 by done. by injection Hit0 as <-.
  - intros r it it0 [[Hr Hit]|[-> ->]]%lookup_push Hit0 Hr' Hex.
    + rewrite lookup_app_l in Hit0 by lia.
      destruct (Hact r Hr') as [Hold| ->]; [|lia]. eapply Hurl; eauto.
    + rewrite Hlen, list_lookup_middle in Hit0 by done. by injection Hit0 as <-.
Qed.

Lemma drain_origin (ex : nat → Prop) (s : server) (l : list DownloadQueueItem) :
  origin ex s l → origin ex (drain s).1 l.
Proof.
  intros Ho. unfold drain. destruct (downloadQueue s) as [|r q] eqn:Hq; simpl.
  - by eapply origin_shrink; [..|done].
  - eapply origin_shrink; [..|apply (origin_alter ex (with_status Sdownloading) r s l)];
      try done.
    unfold active. simpl. rewrite Hq.
    intros r' [Hr'|[[->|Hr']%elem_of_cons|Hr']]; auto. left. left.
Qed.

Lemma settle_origin (ex : nat → Prop) (r : nat) (outcome : option string)
    (stat : stat_result) (s : server) (l : list DownloadQueueItem) :
  origin ex s l → origin ex (settle r outcome stat s).1 l.
Proof.
  intros Ho. unfold settle. case_decide; [|case_decide; [|done]].
  - unfold resume. apply drain_origin.
    assert (∀ f, keeps_identity f → (∀ it, url (f it) = url it) →
              origin ex (set_queue (tail (downloadQueue s))
                (set_heap (alter f r (heap s))
                   (set_drains (filter (λ x, x ≠ r) (drains s)) s))) l) as Hf.
    { intros f Hid Hurl.
      eapply origin_shrink; [..|apply (origin_alter ex f r s l)]; try done.
      unfold active. simpl.
      intros r' [Hr'%elem_of_tail|[[_ Hr']%list_elem_of_filter|Hr']]; auto. }
    destruct outcome; apply Hf; done.
  - unfold download_done.
    assert (origin ex (set_current None (set_legacy (filter (λ x, x ≠ r) (legacy s)) s)) l)
      as Ho'.
    { eapply origin_shrink; [..|done]; [done|]. unfold active. simpl.
      intros r' [Hr'|[Hr'|[_ Hr']%list_elem_of_filter]]; auto. }
    by destruct outcome, stat.
Qed.

(** The item whose download has ended is neither queued nor awaited any
    more. *)
Lemma settle_inactive (r : nat) (outcome : option string) (stat : stat_result)
    (s : server) :
  wf s → r ∈ drains s ∨ r ∈ legacy s → ¬ active (settle r outcome stat s).1 r.
Proof.
  intros Hwf Hr. unfold settle, active. case_decide as Hd.
  - pose proof (awaited_not_in_tail s r Hwf Hd) as Hnotin.
    assert (r ∉ legacy s) as Hleg
      by (intros Hl; by destruct (wf_legacy_queue s Hwf r Hl)).
    rewrite (drains_singleton s r Hwf Hd).
    rewrite filter_cons_False by (intros H; by apply H). rewrite filter_nil.
    unfold resume, drain.
    destruct outcome; simpl; destruct (tail (downloadQueue s)) as [|r' q] eqn:Hq; simpl;
      intros [Hin|[Hin|Hin]]; try done;
      try (by apply not_elem_of_nil in Hin);
      apply list_elem_of_singleton in Hin as ->; apply Hnotin; left.
  - destruct Hr as [Hr|Hr]; [done|]. rewrite decide_True by done.
    destruct (wf_legacy_queue s Hwf r Hr) as [Hq _].
    unfold download_done.
    destruct outcome, stat; simpl; intros [Hin|[Hin|[Hne _]%list_elem_of_filter]]; done.
Qed.

Lemma step_origin (v : variant) (s : server) (l : list DownloadQueueItem) (e : event) :
  wf s → origin (λ _, False) s l → origin (λ _, False) (step v s e).1 (l ++ built v e).
Proof.
  intros Hwf Ho.
  destruct e as [url title now iso| |i|url now iso| |r line|r code stat|r message];
    simpl; rewrite ?app_nil_r; try done.
  - unfold queue_add. destruct (validate_url v url); [by rewrite app_nil_r|].
    match goal with |- context [set_heap (heap s ++ [?item]) s] =>
      assert (origin (λ _, False) (pushed item s) (l ++ [item])) as Hpushed;
      [|change (set_queue _ (set_heap (heap s ++ [item]) s)) with (pushed item s);
        generalize dependent (pushed item s)]
    end.
    { eapply origin_push; [done| |done]. unfold active. simpl.
      intros r [[Hr| ->]%elem_of_push|Hr]; auto. }
    intros s1 Ho1. destruct (isProcessing s1) eqn:Hp; simpl; [done|].
    unfold processQueue. rewrite Hp. simpl.
    destruct (length (downloadQueue s1) =? 0)%nat; [done|].
    match type of Ho1 with origin _ _ ?l1 =>
      assert (origin (λ _, False) (drain (set_processing true s1)).1 l1) as Hd
    end.
    { apply drain_origin. by eapply origin_shrink; [..|done]. }
    by destruct (drain (set_processing true s1)).
  - unfold queue_cancel. destruct (findIndex s i (downloadQueue s)) as [index|]; [|done].
    simpl. eapply origin_shrink; [..|done]; [done|]. unfold active. simpl.
    intros r [Hr|Hr]; auto. left. eapply elem_of_sublist; [done|apply sublist_delete].
  - unfold download. destruct (validate_url v url); [by rewrite app_nil_r|]. simpl.
    eapply origin_push; [done| |done]. unfold active. simpl.
    intros r [Hr|[Hr|[->|Hr]%elem_of_cons]]; auto.
  - case_decide; [|done]. apply origin_alter; [| |done].
    + intros it. by destruct (on_stdout_identity line it) as (? & ? & ?).
    + intros it. unfold on_stdout. by destruct (match_progress line), (_ || _).
  - case_decide as Hr; [|done].
    eapply origin_clear; [|apply settle_origin, origin_alter_at; [|done]].
    + intros r' [[]| ->].
      apply (settle_inactive r (close_outcome code) stat
               (set_heap (alter (on_close code) r (heap s)) s)); [|done].
      by apply alter_wf, Hwf; apply on_close_harmless.
    + intros it. by destruct (on_close_identity code it) as (? & ? & ?).
  - by apply settle_origin.
Qed.

Lemma run_origin (v : variant) (evs : list event) (s : server)
    (l : list DownloadQueueItem) :
  wf s → origin (λ _, False) s l →
  origin (λ _, False) (run v s evs).1 (l ++ enqueued v evs).
Proof.
  revert s l. induction evs as [|e evs IH]; intros s l Hwf Ho.
  { simpl. by rewrite app_nil_r. }
  rewrite run_cons. simpl.
  change (enqueued v (e :: evs)) with (built v e ++ enqueued v evs).
  rewrite app_assoc. apply IH; [by apply step_wf|by apply step_origin].
Qed.

(** C10 (amended).  In any state the server reaches, the items are those
    that the accepted requests built, in order, each built with the
    [url] submitted with its request, and:
    - every item has the [id], the [title] and the [addedAt] it was
      built with; as long as it is queued or its download is awaited,
      its [url] is the value submitted with the request;
    - when the download of an awaited item closes with code 0, that turn
      replaces [url] by the download URL of the result file,
      [http://localhost:PORT/downloads/] followed by [video_<id>.mp4],
      and sets [filename] to [video_<id>.mp4]; [id], [title], [addedAt]
      and [error] stay; for a job of the queue the loop sets [status] to
      [complete] and [progress] to 100 in the same turn, for a legacy
      download both stay; after the turn the item is neither queued nor
      awaited nor [currentDownload], so no status or queue response
      shows it;
    - every item whose status is [complete] holds the download URL in
      [url], and is neither queued nor [currentDownload].
    So [status], [progress] and [filename] of a completed job are not
    those of the request. *)
Theorem completed_download_overwrites_url (v : variant) (evs : list event) :
  let s := (run v init evs).1 in
  let l := enqueued v evs in
  length (heap s) = length l ∧
  (∀ r it0, l !! r = Some it0 →
     ∃ e, e ∈ evs ∧
          match e with
          | QueueAdd u _ now iso =>
              url it0 = u ∧ id it0 = pretty now ∧ addedAt it0 = Some iso ∧
              status it0 = Squeued ∧ progress it0 = 0%Q ∧ filename it0 = None
          | Download u now _ =>
              url it0 = u ∧ id it0 = pretty now ∧
              status it0 = Sdownloading ∧ progress it0 = 0%Q ∧ filename it0 = None
          | _ => False
          end) ∧
  (∀ r it, heap s !! r = Some it →
     ∃ it0, l !! r = Some it0 ∧
            id it = id it0 ∧ title it = title it0 ∧ addedAt it = addedAt it0 ∧
            (r ∈ downloadQueue s ∨ r ∈ drains s ∨ r ∈ legacy s → url it = url it0)) ∧
  (∀ r it stat,
     r ∈ drains s ∨ r ∈ legacy s → heap s !! r = Some it →
     ∃ it', heap (step v s (Close r (Some 0%Z) stat)).1 !! r = Some it' ∧
            url it' = JStr (download_url (video_name it)) ∧
            filename it' = Some (video_name it) ∧
            id it' = id it ∧ title it' = title it ∧ addedAt it' = addedAt it ∧
            error it' = error it ∧
            (r ∈ drains s → status it' = Scomplete ∧ progress it' = 100%Q) ∧
            (r ∈ legacy s → status it' = status it ∧ progress it' = progress it) ∧
            (r ∉ downloadQueue (step v s (Close r (Some 0%Z) stat)).1) ∧
            (r ∉ drains (step v s (Close r (Some 0%Z) stat)).1) ∧
            (r ∉ legacy (step v s (Close r (Some 0%Z) stat)).1) ∧
            currentDownload (step v s (Close r (Some 0%Z) stat)).1 ≠ Some r) ∧
  (∀ r it, heap s !! r = Some it → status it = Scomplete →
     url it = JStr (download_url (video_name it)) ∧ filename it = Some (video_name it) ∧
     (r ∉ downloadQueue s) ∧ currentDownload s ≠ Some r).
Proof.
  intros s l. pose proof (reachable_wf v evs) as Hwf. fold s in Hwf.
  assert (origin (λ _, False) s l) as [Hlen Hid Hurl].
  { apply (run_origin v evs init [] wf_init). split; simpl; [done|by intros []..]. }
  pose proof (run_tracked v evs init [] wf_init tracked_init) as Htr. fold s in Htr.
  split_and!.
  - done.
  - intros r it0 Hit0%list_elem_of_lookup_2.
    apply list_elem_of_bind in Hit0 as (e & Hit0 & He). exists e. split; [done|].
    destruct e as [u title now iso| |i|u now iso| |r' line|r' code stat|r' message];
      simpl in Hit0; try (by apply not_elem_of_nil in Hit0);
      destruct (validate_url v u); try (by apply not_elem_of_nil in Hit0);
      by apply list_elem_of_singleton in Hit0 as ->.
  - intros r it Hit.
    destruct (lookup_lt_is_Some_2 l r) as [it0 Hit0].
    { rewrite <-Hlen. by eapply lookup_lt_Some. }
    exists it0. destruct (Hid r it it0 Hit Hit0) as (? & ? & ?).
    split_and!; try done. intros Hr. eapply Hurl; [done|done|exact Hr|tauto].
  - intros r it stat Hr Hit.
    assert (¬ active (step v s (Close r (Some 0%Z) stat)).1 r) as Hinactive.
    { unfold step. rewrite decide_True by done. apply settle_inactive; [|done].
      by apply alter_wf, Hwf; apply on_close_harmless. }
    assert (currentDownload (step v s (Close r (Some 0%Z) stat)).1 ≠ Some r) as Hcur.
    { intros Hc. apply Hinactive. right.
      by apply (wf_current _ (step_wf v s (Close r (Some 0%Z) stat) Hwf)). }
    unfold active in Hinactive. revert Hinactive Hcur.
    destruct (decide (r ∈ drains s)) as [Hd|Hd].
    + pose proof (awaited_not_in_tail s r Hwf Hd) as Hnotin.
      rewrite (success_step v s r stat Hwf Hd). unfold resume, drain. simpl.
      intros Hinactive Hcur.
      exists (with_progress 100 (with_status Scomplete (on_close (Some 0%Z) it))).
      split_and!; try done; try tauto.
      * destruct (tail (downloadQueue s)) as [|r' q'] eqn:Hq; simpl.
        -- by rewrite !list_lookup_alter_eq, Hit.
        -- rewrite list_lookup_alter_ne, !list_lookup_alter_eq, Hit; [done|].
           intros ->. apply Hnotin. left.
      * intros Hl. by destruct (wf_legacy_queue s Hwf r Hl).
    + destruct Hr as [Hr|Hr]; [done|].
      unfold step. rewrite decide_True by auto.
      unfold settle. simpl. rewrite decide_False, decide_True by done.
      unfold download_done. intros Hinactive Hcur.
      exists (on_close (Some 0%Z) it).
      destruct stat; simpl in *;
        rewrite list_lookup_alter_eq, Hit; split_and!; try done; tauto.
  - intros r it Hit Hcomplete.
    destruct (wf_complete s Hwf r it Hit Hcomplete) as [Hu Hf].
    split; [done|]. split; [done|]. split.
    + intros Hq. rewrite (wf_status s Hwf r it Hq Hit) in Hcomplete. by case_bool_decide.
    + intros Hc. destruct (tracked_active s _ Htr r (wf_current s Hwf r Hc)) as [Hst _].
      rewrite Hit in Hst. injection Hst as Hst. congruence.
Qed.

End Platform.

(** *** Example runs *)

(** A platform whose [new URL] accepts every string, on port 3000. *)
Definition any_url (u : string) : bool := true.

(** Two requests to [/queue/add]. *)
Definition two_requests : list event :=
  [ QueueAdd (JStr "https://example.com/a") JUndefined 1700000000000 "2023-11-14T22:13:20.000Z";
    QueueAdd (JStr "https://example.com/b") (JStr "B") 1700000000001 "2023-11-14T22:13:20.001Z" ].








(** After the two requests, yt-dlp exits with code 0 on the first job:
    its url becomes the download URL of [video_1700000000000.mp4]. *)
Lemma completed_download_overwrites_url_witness :
  let s := (run any_url 3000 ServerTs init two_requests).1 in
  (0%nat ∈ drains s ∨ 0%nat ∈ legacy s) ∧
  ∃ it it0 it', heap s !! 0%nat = Some it ∧
    enqueued any_url ServerTs two_requests !! 0%nat = Some it0 ∧
    url it0 = JStr "https://example.com/a" ∧ url it = url it0 ∧
    heap (step any_url 3000 ServerTs s (Close 0 (Some 0%Z) (StatSize 1))).1 !! 0%nat = Some it' ∧
    url it' = JStr "http://localhost:3000/downloads/video_1700000000000.mp4" ∧
    status it' = Scomplete.
Proof.
  assert (0%nat ∈ drains (run any_url 3000 ServerTs init two_requests).1) as Hin
    by (vm_compute; left).
  split; [by left|].
  destruct (completed_download_overwrites_url any_url 3000 ServerTs two_requests)
    as (_ & _ & Horigin & Hclose & _).
  eexists.
  destruct (Horigin 0%nat _ eq_refl) as (it0 & Hit0 & _ & _ & _ & Hurl).
  destruct (Hclose 0%nat _ (StatSize 1) (or_introl Hin) eq_refl)
    as (it' & Hit' & Hnew & _ & _ & _ & _ & _ & Hst & _).
  exists it0, it'. split; [reflexivity|]. split; [exact Hit0|].
  split; [by vm_compute in Hit0; injection Hit0 as <-|].
  split; [apply Hurl; right; left; exact Hin|].
  split; [exact Hit'|]. split; [exact Hnew|]. exact (proj1 (Hst Hin)).
Defined.

(** The first of the two jobs is cancelled while it is downloaded; when
    its process ends, the second job leaves the queue unstarted. *)
Lemma cancel_active_job_skips_next_witness :
  let s := (run any_url 3000 ServerTs init two_requests).1 in
  let s1 := (step any_url 3000 ServerTs s (QueueCancel "1700000000000")).1 in
  let done := step any_url 3000 ServerTs s1 (Close 0 (Some 0%Z) (StatSize 1)) in
  downloadQueue s = [0%nat; 1%nat] ∧
  0%nat ∈ drains s ∧
  id <$> heap s !! 0%nat = Some "1700000000000" ∧
  downloadQueue done.1 = [] ∧
  status <$> heap done.1 !! 1%nat = Some Squeued.
Proof.
  cbv zeta.
  assert (0%nat ∈ drains (run any_url 3000 ServerTs init two_requests).1) as Hin
    by (vm_compute; left).
  split; [reflexivity|]. split; [exact Hin|]. split; [reflexivity|].
  destruct (cancel_active_job_skips_next any_url 3000 ServerTs two_requests "1700000000000"
              0 1 [] (Some 0%Z) (StatSize 1) eq_refl Hin eq_refl)
    as (_ & _ & Hq & _ & _ & Hst).
  split; [exact Hq|exact Hst].
Defined.

(** A legacy download beside a queued one: when the legacy process
    ends, [currentDownload] is reset although job 0 is still awaited. *)
Definition queue_and_legacy : list event :=
  [ QueueAdd (JStr "https://example.com/a") JUndefined 1700000000000 "2023-11-14T22:13:20.000Z";
    Download (JStr "https://example.com/b") 1700000000001 "2023-11-14T22:13:20.001Z" ].

Lemma legacy_download_completion_witness :
  let s := (run any_url 3000 ServerTs init queue_and_legacy).1 in
  let out := step any_url 3000 ServerTs s (Close 1 (Some 0%Z) (StatSize 1)) in
  1%nat ∈ legacy s ∧
  drains s = [0%nat] ∧
  currentDownload out.1 = None ∧
  drains out.1 = drains s ∧
  status <$> heap out.1 !! 1%nat = status <$> heap s !! 1%nat.
Proof.
  cbv zeta.
  assert (1%nat ∈ legacy (run any_url 3000 ServerTs init queue_and_legacy).1) as Hin
    by (vm_compute; left).
  split; [exact Hin|]. split; [reflexivity|].
  destruct (legacy_download_completion any_url 3000 ServerTs queue_and_legacy 1
              (Some 0%Z) (StatSize 1) Hin) as (Hcur & _ & Hd & _ & _ & _ & Hst & _).
  split; [exact Hcur|]. split; [exact Hd|exact Hst].
Defined.



Lemma on_stdout_reads_percentage_witness :
  let it := {| id := "1700000000000"; url := JStr "https://example.com/a";
               title := JStr "Video"; status := Sdownloading; progress := 0;
               addedAt := None; filename := None; error := None |} in
  digits "45" = ([4; 5]%nat, EmptyString) ∧
  digits "2" = ([2]%nat, EmptyString) ∧
  match_progress "[download]  45.2% of ~10MiB" = Some ([4; 5]%nat, [2]%nat) ∧
  (progress (on_stdout "[download]  45% of ~10MiB" it) == inject_Z 45)%Q.
Proof.
  cbv zeta.
  assert (Forall (λ c, Ascii.is_nat c = None) (String.list_ascii_of_string "[download]  "))
    as Hpre by (repeat constructor).
  split; [reflexivity|]. split; [reflexivity|].
  destruct (on_stdout_reads_percentage "[download]  " "45" "2" " of ~10MiB" [4; 5]%nat [2]%nat
              {| id := "1700000000000"; url := JStr "https://example.com/a";
                 title := JStr "Video"; status := Sdownloading; progress := 0;
                 addedAt := None; filename := None; error := None |}
              Hpre eq_refl ltac:(discriminate) eq_refl) as (Hm & _ & Hp).
  split; [exact Hm|]. apply Hp. reflexivity.
Defined.


(** The first of the two jobs completes; a late line of output and a
    request to cancel it leave its item as it is. *)
Definition first_job_done : list event :=
  two_requests ++ [Close 0 (Some 0%Z) (StatSize 1)].

Lemma finished_items_are_final_witness :
  let s := (run any_url 3000 ServerTs init first_job_done).1 in
  let later := [Stdout 0 "[download]  50.0% of ~10MiB"; QueueCancel "1700000000000"] in
  ∃ it, heap s !! 0%nat = Some it ∧
        status it = Scomplete ∧
        heap (run any_url 3000 ServerTs s later).1 !! 0%nat = Some it.
Proof.
  cbv zeta. eexists. split; [reflexivity|]. split; [reflexivity|].
  exact (proj2 (proj2 (proj2
    (finished_items_are_final any_url 3000 ServerTs first_job_done
       [Stdout 0 "[download]  50.0% of ~10MiB"; QueueCancel "1700000000000"]
       0 _ eq_refl eq_refl)))).
Defined.

(** C10 as claimed does not hold in its last clause: [status],
    [progress] and [filename] of a completed job are not those of the
    request.  The first of the two jobs is built with status [queued],
    progress 0 and no filename; once its download has closed with code 0
    it has status [complete], progress 100 and the filename
    [video_1700000000000.mp4]. *)
Lemma completed_job_fields_changed :
  let s := (run any_url 3000 ServerTs init first_job_done).1 in
  (∃ it it0, heap s !! 0%nat = Some it ∧
             enqueued any_url ServerTs first_job_done !! 0%nat = Some it0 ∧
             status it0 = Squeued ∧ status it = Scomplete ∧
             progress it0 = 0%Q ∧ progress it = 100%Q ∧
             filename it0 = None ∧ filename it = Some "video_1700000000000.mp4") ∧
  ¬ (∀ v evs r it it0,
       heap (run any_url 3000 v init evs).1 !! r = Some it →
       enqueued any_url v evs !! r = Some it0 →
       status it = status it0 ∧ progress it = progress it0 ∧ filename it = filename it0).
Proof.
  cbv zeta. split.
  - eexists _, _. split; [reflexivity|]. split; [reflexivity|]. by repeat split.
  - intros Hclaim.
    destruct (Hclaim ServerTs first_job_done 0%nat _ _ eq_refl eq_refl) as [Hst _].
    discriminate Hst.
Qed.

End Queue.
